(** * Edge filters of What's Wrong With My NLP (Python port)

    A shallow embedding of [EdgeLabelFilter.py] and [EdgeTokenFilter.py]:
    the label filter, the property/path filter, the path enumeration
    ([calculatePaths]) and the collapse step of [filter].

    Python dictionaries are finite maps ([gmap]), Python sets are finite
    sets ([gset]), Python lists are lists, Python integers are [Z], and a
    call that may raise returns an [outcome]. *)

From stdpp Require Import gmap strings list fin_maps sorting.
From Stdlib Require Import ZArith Lia.

Local Open Scope Z_scope.

Set Warnings "-clear-no-such-hyp".

(** ** Outcomes of Python calls *)

(** The exceptions the embedded code can raise. *)
Inductive exn : Type :=
  | IndexError      (* list index out of range *)
  | KeyError        (* missing dictionary key, or [set.remove] of a non-member *)
  | TypeError       (* iterating over [None] *)
  | AttributeError. (* [iter(s).next()] under Python 3 *)

(** A call returns a value, raises, or (for the [while True] loop, which
    is run on fuel) is still running when the fuel is spent. *)
Inductive outcome (A : Type) : Type :=
  | Ok (a : A)
  | Raise (e : exn)
  | OutOfFuel.
Arguments Ok {A} a.
Arguments Raise {A} e.
Arguments OutOfFuel {A}.

Global Instance outcome_bind : MBind outcome := λ A B k m,
  match m with
  | Ok a => k a
  | Raise e => Raise e
  | OutOfFuel => OutOfFuel
  end.

(** [for x in l: s = body(s, x)], stopping at the first exception. *)
Fixpoint for_each {S X} (body : S → X → outcome S) (l : list X) (s : S)
  : outcome S :=
  match l with
  | [] => Ok s
  | x :: l' => s' ← body s x; for_each body l' s'
  end.

(** ** Strings *)

(** Python's [a in s] on strings: [a] occurs in [s] as a contiguous,
    case-sensitive run of characters; the empty string occurs everywhere. *)
Fixpoint str_contains (a s : string) : bool :=
  String.prefix a s ||
  match s with
  | EmptyString => false
  | String _ s' => str_contains a s'
  end.

(** ** Graph model *)

(** Modelled from the spec: class [Token] ([Token.py] is not part of the
    sources): an integer [index] and a mapping from property names to
    property values. Two tokens are the same dictionary key when they
    agree on both. *)
Record Token : Type := mkToken {
  index : Z;
  tokenProperties : gmap string string
}.

(** Modelled from the spec: [Edge.RenderType]. *)
Inductive RenderType : Type := dependency | span.

(** Modelled from the spec: class [Edge] ([Edge.py] is not part of the
    sources); structural equality. The constructor's keyword [Type] is
    the attribute [type]. *)
Record Edge : Type := mkEdge {
  From : Token;
  To : Token;
  label : string;
  note : string;
  type : string;
  renderType : RenderType;
  description : string
}.

Global Instance Token_eq_dec : EqDecision Token.
Proof. solve_decision. Defined.

Global Instance RenderType_eq_dec : EqDecision RenderType.
Proof. solve_decision. Defined.

Global Instance Edge_eq_dec : EqDecision Edge.
Proof. solve_decision. Defined.

Global Instance Token_countable : Countable Token.
Proof.
  refine (inj_countable' (λ t, (index t, tokenProperties t))
            (λ p, mkToken p.1 p.2) _).
  by intros [].
Defined.

Global Instance RenderType_countable : Countable RenderType.
Proof.
  refine (inj_countable' (λ r, match r with dependency => false | span => true end)
            (λ b : bool, if b then span else dependency) _).
  by intros [].
Defined.

Global Instance Edge_countable : Countable Edge.
Proof.
  refine (inj_countable'
            (λ e, (From e, To e, label e, note e, type e, renderType e,
                   description e))
            (λ p, match p with
                  | (f, t, l, n, ty, r, d) => mkEdge f t l n ty r d
                  end) _).
  by intros [].
Defined.


(** A collection of edges handed to or returned by a filter: a Python
    list, or a Python set. *)
Inductive collection : Type :=
  | AsList (l : list Edge)
  | AsSet (s : gset Edge).

(** [for edge in c]: a list is visited in order, a set in some order. *)
Definition iter_edges (c : collection) : list Edge :=
  match c with
  | AsList l => l
  | AsSet s => elements s
  end.

(** [NLPInstance.RenderType]; [single] is the value the main window gives
    to every instance it loads. *)
Inductive InstanceRenderType : Type := single | double.

(** Modelled from the spec: class [NLPInstance] ([NLPInstance.py] is not
    part of the sources): the token sequence, the edges, the render type
    and the split points. *)
Record NLPInstance : Type := mkNLPInstance {
  tokens : list Token;
  edges : collection;
  instanceRenderType : InstanceRenderType;
  splitPoints : list Z
}.

(** [l[i]] on a Python list: a negative index counts from the end. *)
Definition py_getitem {A} (l : list A) (i : Z) : outcome A :=
  let j := if bool_decide (i < 0) then i + Z.of_nat (length l) else i in
  if bool_decide (j < 0) then Raise IndexError
  else match l !! Z.to_nat j with
       | Some x => Ok x
       | None => Raise IndexError
       end.

(** [d[k]] on a Python dictionary. *)
Definition py_lookup `{Countable K} {V} (d : gmap K V) (k : K) : outcome V :=
  match d !! k with
  | Some v => Ok v
  | None => Raise KeyError
  end.

(** [range(a, b)]. *)
Definition py_range (a b : Z) : list Z :=
  (λ k : nat, a + Z.of_nat k) <$> seq 0 (Z.to_nat (b - a)).

(** Modelled from the spec: [NLPInstance.getEdges] and
    [NLPInstance.getToken]. *)
Definition getEdges (inst : NLPInstance) : collection := edges inst.
Definition getToken (inst : NLPInstance) (i : Z) : outcome Token :=
  py_getitem (tokens inst) i.

(** Modelled from the spec: [Token.propertiesContain] ([Token.py] is not
    part of the sources), the predicate the spec calls [qualifies]: with
    [wholeWord] some property value equals some allowed string, without
    it some property value contains some allowed string. *)
Definition propertiesContain (tok : Token) (substrings : gset string)
    (wholeWord : bool) : bool :=
  existsb (λ value,
    existsb (λ s, if wholeWord then bool_decide (value = s)
                  else str_contains s value)
            (elements substrings))
    (map_to_list (tokenProperties tok)).*2.

(** Modelled from the spec: [Token(index)] followed by [merge(other)]: a
    token at the new index that carries the other token's properties. *)
Definition merge (newToken other : Token) : Token :=
  mkToken (index newToken)
          (tokenProperties other ∪ tokenProperties newToken).

(** ** EdgeLabelFilter.py *)

Module EdgeLabelFilter.

Record t : Type := mk { _allowedLabels : gset string }.

Definition init (allowedLabels : list string) : t :=
  mk (list_to_set allowedLabels).

Definition addAllowedLabel (self : t) (label : string) : t :=
  mk ({[label]} ∪ _allowedLabels self).

(** [set.remove] raises [KeyError] when the element is absent. *)
Definition removeAllowedLabel (self : t) (label : string) : outcome t :=
  if bool_decide (label ∈ _allowedLabels self)
  then Ok (mk (_allowedLabels self ∖ {[label]}))
  else Raise KeyError.

Definition clear (self : t) : t := mk ∅.

(** The inner loop of [filterEdges]: the edge is appended at the first
    allowed string found in its label, and the loop is left. *)
Fixpoint first_match (alloweds : list string) (edge : Edge)
    (result : list Edge) : list Edge :=
  match alloweds with
  | [] => result
  | allowed :: rest =>
      if str_contains allowed (label edge) then result ++ [edge]
      else first_match rest edge result
  end.

Definition filterEdges (self : t) (original : collection) : collection :=
  if bool_decide (size (_allowedLabels self) = 0%nat) then original
  else AsList (fold_left
                 (λ result edge,
                    first_match (elements (_allowedLabels self)) edge result)
                 (iter_edges original) []).

Definition allows (self : t) (label : string) : bool :=
  bool_decide (label ∈ _allowedLabels self).

End EdgeLabelFilter.

(** ** EdgeTokenFilter.py *)

Module EdgeTokenFilter.

Record t : Type := mk {
  _usePath : bool;
  _collaps : bool;
  _wholeWords : bool;
  _allowedProperties : gset string
}.

Definition init (allowedProperties : list string) : t :=
  mk false false false (list_to_set allowedProperties).

Definition addAllowedProperty (self : t) (propertyValue : string) : t :=
  mk (_usePath self) (_collaps self) (_wholeWords self)
     ({[propertyValue]} ∪ _allowedProperties self).

Definition removeAllowedProperty (self : t) (propertyValue : string)
    : outcome t :=
  if bool_decide (propertyValue ∈ _allowedProperties self)
  then Ok (mk (_usePath self) (_collaps self) (_wholeWords self)
              (_allowedProperties self ∖ {[propertyValue]}))
  else Raise KeyError.

Definition clear (self : t) : t :=
  mk (_usePath self) (_collaps self) (_wholeWords self) ∅.

Definition allows (self : t) (propertyValue : string) : bool :=
  bool_decide (propertyValue ∈ _allowedProperties self).

(** *** class Path, class Paths *)

(** A [Path] is a set of edges, hashed and compared by content. The
    [_map] of a [Paths] object sends a start token to a dictionary from
    end tokens to sets of paths. *)
Abbreviation Path := (gset Edge).
Abbreviation Paths := (gmap Token (gmap Token (gset (gset Edge)))).

(** What a caller passes for the parameter [From=Token] of [getTos]: a
    token, or nothing, and then the parameter is the class object
    [Token] itself. *)
Inductive from_arg : Type :=
  | TokenClass
  | TokenInstance (tok : Token).

(** [From in self._map] and [self._map[From]]: the keys of [_map] are the
    tokens [addPath] was given, the class object is none of them. *)
Definition map_get (self : Paths) (From : from_arg)
    : option (gmap Token (gset Path)) :=
  match From with
  | TokenClass => None
  | TokenInstance tok => self !! tok
  end.

(** [getPaths]: [None] when [From] is no key, [KeyError] when [From] is
    a key and [to] is not one of its ends. *)
Definition getPaths (self : Paths) (From to : Token)
    : outcome (option (gset Path)) :=
  match self !! From with
  | None => Ok None
  | Some paths => s ← py_lookup paths to; Ok (Some s)
  end.

(** [for path in <value of getPaths>]: [None] is not iterable. *)
Definition iter_paths (r : option (gset Path)) : outcome (list Path) :=
  match r with
  | None => Raise TypeError
  | Some s => Ok (elements s)
  end.

Definition getTos (self : Paths) (From : from_arg) : list Token :=
  match map_get self From with
  | Some result => elements (dom result)
  | None => []
  end.

Definition addPath (self : Paths) (From to : Token) (path : Path) : Paths :=
  let paths := default ∅ (self !! From) in
  let _set := default ∅ (paths !! to) in
  <[From := <[to := {[path]} ∪ _set]> paths]> self.

Definition keys (self : Paths) : list Token := elements (dom self).

Definition len (self : Paths) : nat := size self.

Section methods.

(** [Edge.getTypePrefix] is not part of the sources. *)
Variable getTypePrefix : Edge → string.
(** [iter(path).next()]: some edge of the path where iterators have a
    [next] method, [AttributeError] where they have not. *)
Variable iter_next : Path → outcome Edge.
(** [path2 in path1], a [Path] looked up among the edges of a [Path]. *)
Variable path_in : Path → Path → bool.

(** The test of line 205, the left conjunct first. *)
Definition extends (path1 path2 : Path) : outcome bool :=
  if path_in path2 path1 then Ok false
  else e1 ← iter_next path1;
       e2 ← iter_next path2;
       Ok (bool_decide (getTypePrefix e1 = getTypePrefix e2)).

(** The body of [while True]: the paths one edge longer than those of
    [previous]. The second and third loops call [getTos()] with no
    argument. *)
Definition longer (previous first : Paths) : outcome Paths :=
  for_each (λ paths From,
    for_each (λ paths over,
      for_each (λ paths to,
        r1 ← getPaths previous From over;
        l1 ← iter_paths r1;
        for_each (λ paths path1,
          r2 ← getPaths first over to;
          l2 ← iter_paths r2;
          for_each (λ paths path2,
            b ← extends path1 path2;
            if b : bool then
              let path := path2 ∪ (path1 ∪ ∅) in
              Ok (addPath (addPath paths From to path) to From path)
            else Ok paths)
            l2 paths)
          l1 paths)
        (getTos first TokenClass) paths)
      (getTos previous TokenClass) paths)
    (keys previous) ∅.

(** [while True], on fuel. A level is appended to [pathsPerLength]
    when it is empty, and an empty level ends the loop. *)
Fixpoint levels (fuel : nat) (previous first : Paths)
    (pathsPerLength : list Paths) : outcome (list Paths) :=
  match fuel with
  | O => OutOfFuel
  | S fuel' =>
      paths ← longer previous first;
      let pathsPerLength :=
        if bool_decide (len paths = 0%nat) then pathsPerLength ++ [paths]
        else pathsPerLength in
      if bool_decide (len paths = 0%nat) then Ok pathsPerLength
      else levels fuel' paths first pathsPerLength
  end.

(** The last loop: every path of every level, added to [result]. *)
Definition gather (pathsPerLength : list Paths) : outcome Paths :=
  for_each (λ result p,
    for_each (λ result From,
      for_each (λ result to,
        r ← getPaths p From to;
        l ← iter_paths r;
        for_each (λ result path, Ok (addPath result From to path))
                 l result)
        (getTos p (TokenInstance From)) result)
      (keys p) result)
    pathsPerLength ∅.

(** The first loop: every edge is a one-edge path, in both
    directions. *)
Definition direct (edges : list Edge) : Paths :=
  fold_left (λ paths edge,
               let path : Path := {[edge]} ∪ ∅ in
               addPath (addPath paths (From edge) (To edge) path)
                       (To edge) (From edge) path)
            edges ∅.

Definition calculatePaths (fuel : nat) (edges : collection)
    : outcome Paths :=
  let paths := direct (iter_edges edges) in
  pathsPerLength ← levels fuel paths paths [paths];
  gather pathsPerLength.

(** *** filterEdges *)

Definition qualifies (self : t) (tok : Token) : bool :=
  propertiesContain tok (_allowedProperties self) (_wholeWords self).

(** The branch [if (self._usePath)]: the edges of every path between
    two qualifying tokens. *)
Definition onPaths (self : t) (paths : Paths) : outcome (gset Edge) :=
  for_each (λ result From,
    if qualifies self From then
      for_each (λ result to,
        if qualifies self to then
          r ← getPaths paths From to;
          l ← iter_paths r;
          for_each (λ result path, Ok (result ∪ path)) l result
        else Ok result)
        (getTos paths (TokenInstance From)) result
    else Ok result)
    (keys paths) ∅.

(** The branch [else]: the edges with a qualifying end, in order. *)
Definition onEnds (self : t) (original : list Edge) : list Edge :=
  fold_left (λ result edge,
               if qualifies self (From edge) || qualifies self (To edge)
               then result ++ [edge] else result)
            original [].

Definition filterEdges (fuel : nat) (self : t) (original : collection)
    : outcome collection :=
  if bool_decide (size (_allowedProperties self) = 0%nat) then Ok original
  else if _usePath self then
    paths ← calculatePaths fuel original;
    result ← onPaths self paths;
    Ok (AsSet result)
  else Ok (AsList (onEnds self (iter_edges original))).

(** *** filter *)

(** Lines 293-301: the tokens the kept edges touch. *)
Definition touched (original : NLPInstance) (edges : list Edge)
    : outcome (gset Token) :=
  for_each (λ tokens e,
    match renderType e with
    | dependency => Ok ({[To e]} ∪ ({[From e]} ∪ tokens))
    | span =>
        for_each (λ tokens i,
                    tok ← getToken original i; Ok ({[tok]} ∪ tokens))
                 (py_range (index (From e)) (index (To e) + 1)) tokens
    end)
    edges ∅.

(** Line 303: [sorted(tokens, key=attrgetter("int_index"))]. *)
Definition by_index (a b : Token) : Prop := index a ≤ index b.
Global Instance by_index_dec : RelDecision by_index.
Proof. intros a b. unfold by_index. apply _. Defined.
Definition sorted (tokens : gset Token) : list Token :=
  merge_sort by_index (elements tokens).

(** Lines 305-313: the new tokens and the two dictionaries. *)
Definition renumber (original : NLPInstance) (_sorted : list Token)
    : outcome (list Token * gmap Token Token * gmap Token Token) :=
  for_each (λ '(updatedTokens, old2new, new2old) tok,
    let newToken := mkToken (Z.of_nat (length updatedTokens)) ∅ in
    other ← py_getitem (tokens original) (index tok);
    let newToken := merge newToken other in
    Ok (updatedTokens ++ [newToken],
        <[tok := newToken]> old2new,
        <[newToken := tok]> new2old))
    _sorted ([], ∅, ∅).

(** Lines 315-318: the kept edges, between the new tokens. *)
Definition rewire (old2new : gmap Token Token) (edges : list Edge)
    : outcome (gset Edge) :=
  for_each (λ updatedEdges e,
    f ← py_lookup old2new (From e);
    t ← py_lookup old2new (To e);
    Ok ({[mkEdge f t (label e) (note e) (type e) (renderType e)
                 (description e)]} ∪ updatedEdges))
    edges ∅.

(** Lines 325-328: the inner [while]. Every round moves
    [newTokenIndex] one step towards [len(tokens)], so [len(tokens)]
    rounds of fuel are never spent. *)
Fixpoint advance (fuel : nat) (n : nat) (updatedTokens : list Token)
    (new2old : gmap Token Token) (oldSplitPoint : Z)
    (newTokenIndex : nat) (oldToken : Token) : outcome nat :=
  if bool_decide (newTokenIndex + 1 < n)%nat
     && bool_decide (index oldToken < oldSplitPoint)
  then match fuel with
       | O => OutOfFuel
       | S fuel' =>
           let newTokenIndex := (newTokenIndex + 1)%nat in
           newToken ← py_getitem updatedTokens (Z.of_nat newTokenIndex);
           oldToken ← py_lookup new2old newToken;
           advance fuel' n updatedTokens new2old oldSplitPoint
                   newTokenIndex oldToken
       end
  else Ok newTokenIndex.

(** Lines 320-329: the new split points; [newTokenIndex] is kept from
    one split point to the next. *)
Definition resplit (n : nat) (updatedTokens : list Token)
    (new2old : gmap Token Token) (oldSplitPoints : list Z)
    : outcome (list Z) :=
  r ← for_each (λ '(splitPoints, newTokenIndex) oldSplitPoint,
         newToken ← py_getitem updatedTokens (Z.of_nat newTokenIndex);
         oldToken ← py_lookup new2old newToken;
         newTokenIndex ← advance n n updatedTokens new2old oldSplitPoint
                                 newTokenIndex oldToken;
         Ok (splitPoints ++ [Z.of_nat newTokenIndex], newTokenIndex))
       oldSplitPoints ([], 0%nat);
  Ok r.1.

Definition filter (fuel : nat) (self : t) (original : NLPInstance)
    : outcome NLPInstance :=
  edges ← filterEdges fuel self (getEdges original);
  if negb (_collaps self) then
    Ok (mkNLPInstance (tokens original) edges
                      (instanceRenderType original) (splitPoints original))
  else
    tokens ← touched original (iter_edges edges);
    let _sorted := sorted tokens in
    '(updatedTokens, old2new, new2old) ← renumber original _sorted;
    updatedEdges ← rewire old2new (iter_edges edges);
    splitPoints ← resplit (size tokens) updatedTokens new2old
                          (splitPoints original);
    Ok (mkNLPInstance updatedTokens (AsSet updatedEdges)
                      (instanceRenderType original) splitPoints).

End methods.

End EdgeTokenFilter.

(** * Specification vocabulary *)

(** The label of [e] contains one of the strings of [allowed] as a
    contiguous substring. *)
Definition label_matches (allowed : gset string) (e : Edge) : Prop :=
  ∃ a p q, a ∈ allowed ∧ label e = p +:+ a +:+ q.

(** The token has a property value that matches one of the strings of
    [allowed]: equal to it with [wholeWords], containing it without. *)
Definition token_qualifies (allowed : gset string) (wholeWords : bool)
    (tok : Token) : Prop :=
  ∃ name value a,
    tokenProperties tok !! name = Some value ∧ a ∈ allowed ∧
    if wholeWords then value = a else ∃ p q, value = p +:+ a +:+ q.

(** [path] is recorded in the index between [a] and [b]: it is in the set
    that [getPaths a b] returns. *)
Definition recorded (idx : gmap Token (gmap Token (gset (gset Edge))))
    (a b : Token) (path : gset Edge) : Prop :=
  ∃ ends paths, idx !! a = Some ends ∧ ends !! b = Some paths ∧ path ∈ paths.

(** [e] runs between [a] and [b], in either direction. *)
Definition joins (e : Edge) (a b : Token) : Prop :=
  (a = From e ∧ b = To e) ∨ (a = To e ∧ b = From e).

(** [recorded], on triples. *)
Definition recorded3 (idx : gmap Token (gmap Token (gset (gset Edge))))
    (t : Token * Token * gset Edge) : Prop :=
  recorded idx t.1.1 t.1.2 t.2.

(** *** A chain of two edges *)

Definition tokA : Token := mkToken 0 {["Word" := "The"]}.
Definition tokB : Token := mkToken 1 {["Word" := "dog"]}.
Definition tokC : Token := mkToken 2 {["Word" := "runs"]}.
Definition edgeAB : Edge :=
  mkEdge tokA tokB "det" EmptyString "dep" dependency EmptyString.
Definition edgeBC : Edge :=
  mkEdge tokB tokC "nsubj" EmptyString "dep" dependency EmptyString.

(** *** A span over one token *)

Definition tokDog : Token := mkToken 0 {["Word" := "dog"]}.
Definition edgeNP : Edge :=
  mkEdge tokDog tokDog "NP" EmptyString "chunk" span EmptyString.
Definition onlyDogs : EdgeTokenFilter.t :=
  EdgeTokenFilter.mk true false false {["dog"]}.

(** ** Well-formed instances and what collapsing is to produce *)

(** The invariants of an instance: token [i] carries index [i], the ends of
    every edge are tokens of the instance, a span runs from left to right,
    and the split points are non-decreasing indices of tokens. *)
Record well_formed (inst : NLPInstance) : Prop := {
  wf_dense : ∀ (i : nat) tok,
    tokens inst !! i = Some tok → index tok = Z.of_nat i;
  wf_ends : ∀ e, e ∈ iter_edges (edges inst) →
    From e ∈ tokens inst ∧ To e ∈ tokens inst;
  wf_span : ∀ e, e ∈ iter_edges (edges inst) → renderType e = span →
    index (From e) ≤ index (To e);
  wf_split_range : ∀ sp, sp ∈ splitPoints inst →
    0 ≤ sp < Z.of_nat (length (tokens inst));
  wf_split_sorted : Sorted Z.le (splitPoints inst)
}.

(** [tok] survives the collapse onto the edges [kept]: it is an end of a
    kept dependency edge, or lies in the range of a kept span. *)
Definition survives (inst : NLPInstance) (kept : list Edge) (tok : Token)
    : Prop :=
  tok ∈ tokens inst ∧
  ∃ e, e ∈ kept ∧
       match renderType e with
       | dependency => tok = From e ∨ tok = To e
       | span => index (From e) ≤ index tok ≤ index (To e)
       end.

(** The token that takes the place of [tok] at the new index [k]. *)
Definition new_token (k : nat) (tok : Token) : Token :=
  mkToken (Z.of_nat k) (tokenProperties tok).

(** [e'] is [e] between the new tokens of its ends; [survivors] lists the
    surviving tokens in their new order. *)
Definition rewired (survivors : list Token) (e e' : Edge) : Prop :=
  ∃ i j : nat,
    survivors !! i = Some (From e) ∧ survivors !! j = Some (To e) ∧
    e' = mkEdge (new_token i (From e)) (new_token j (To e)) (label e)
                (note e) (type e) (renderType e) (description e).

(** [k] is the new index for the split point [sp]; [olds] lists the
    original indices of the surviving tokens in their new order. Either
    [k] is the first position whose original index is at or after [sp],
    or no original index is and [k] is the last position. *)
Definition remapped (olds : list Z) (sp : Z) (k : nat) : Prop :=
  (∃ o, olds !! k = Some o ∧ sp ≤ o ∧
        ∀ (j : nat) o', (j < k)%nat → olds !! j = Some o' → o' < sp)
  ∨ ((∀ o, o ∈ olds → o < sp) ∧ S k = length olds).

(** The indices of a list of tokens increase strictly. *)
Definition increasing (l : list Token) : Prop :=
  ∀ (i j : nat) a b, (i < j)%nat → l !! i = Some a → l !! j = Some b →
                     index a < index b.

(** *** A sentence with a split point and nothing to keep *)

(** One token, no edge, a split point at the token; the filter allows
    everything and collapses. *)
Definition loneDog : NLPInstance :=
  mkNLPInstance [tokDog] (AsList []) single [0].
Definition collapsing : EdgeTokenFilter.t :=
  EdgeTokenFilter.mk false true false ∅.

(** Two tokens and an edge between them, a split point at the first
    token; the filter asks for a word that is not there, and collapses. *)
Definition theDog : NLPInstance :=
  mkNLPInstance [tokA; tokB] (AsList [edgeAB]) single [0].
Definition onlyCats : EdgeTokenFilter.t :=
  EdgeTokenFilter.mk false true false {["cat"]}.

(** *** A sentence that collapses *)

(** [The dog runs fast] with a split point at [runs]; the filter keeps
    the edges that touch [fast], and collapses. *)
Definition tokD : Token := mkToken 3 {["Word" := "fast"]}.
Definition edgeCD : Edge :=
  mkEdge tokC tokD "advmod" EmptyString "dep" dependency EmptyString.
Definition theDogRunsFast : NLPInstance :=
  mkNLPInstance [tokA; tokB; tokC; tokD] (AsList [edgeAB; edgeBC; edgeCD])
                single [2].
Definition onlyFast : EdgeTokenFilter.t :=
  EdgeTokenFilter.mk false true false {["fast"]}.

(** * The rest of the two filters, and the corpus loader *)

(** ** EdgeTokenFilter.py: the flags *)

(** The setters of the properties [usePath], [collaps] and [wholeWords]
    (lines 65-67, 85-87, 239-241); the getters are the record's fields. *)
Definition set_usePath (self : EdgeTokenFilter.t) (value : bool)
    : EdgeTokenFilter.t :=
  EdgeTokenFilter.mk value (EdgeTokenFilter._collaps self)
    (EdgeTokenFilter._wholeWords self)
    (EdgeTokenFilter._allowedProperties self).

Definition set_collaps (self : EdgeTokenFilter.t) (value : bool)
    : EdgeTokenFilter.t :=
  EdgeTokenFilter.mk (EdgeTokenFilter._usePath self) value
    (EdgeTokenFilter._wholeWords self)
    (EdgeTokenFilter._allowedProperties self).

Definition set_wholeWords (self : EdgeTokenFilter.t) (value : bool)
    : EdgeTokenFilter.t :=
  EdgeTokenFilter.mk (EdgeTokenFilter._usePath self)
    (EdgeTokenFilter._collaps self) value
    (EdgeTokenFilter._allowedProperties self).

(** ** EdgeTokenFilter.py: Path.__hash__ *)

(** Lines 115-119: the sum of the hashes of the edges, in the order the
    set hands them out; [hash] is Python's [hash] on edges. *)
Definition Path_hash (hash : Edge → Z) (self : gset Edge) : Z :=
  fold_left (λ value e, value + hash e) (elements self) 0.

(** ** Vocabulary *)

(** [a] is an end of an edge of the collection. *)
Definition is_end (c : collection) (a : Token) : Prop :=
  ∃ e, e ∈ iter_edges c ∧ (a = From e ∨ a = To e).

(** A span that runs from right to left. *)
Definition reversed_span (e : Edge) : Prop :=
  renderType e = span ∧ index (To e) < index (From e).

(** The label filter keeps [e] out of [c]. *)
Definition label_keeps (allowed : gset string) (c : collection) (e : Edge)
    : Prop :=
  e ∈ iter_edges (EdgeLabelFilter.filterEdges (EdgeLabelFilter.mk allowed) c).

(** Every start of the index has an end, and every pair it lists has a
    path. *)
Definition populated (idx : gmap Token (gmap Token (gset (gset Edge))))
    : Prop :=
  ∀ a ends, idx !! a = Some ends →
    (∃ b, is_Some (ends !! b)) ∧
    ∀ b paths, ends !! b = Some paths → ∃ q, q ∈ paths.

(** ** whatswrong_SVG.py: MyForm.choosenFile *)

Module MyForm.

(** [instance.renderType = value]. *)
Definition set_renderType (instance : NLPInstance)
    (value : InstanceRenderType) : NLPInstance :=
  mkNLPInstance (tokens instance) (edges instance) value
                (splitPoints instance).

Section choosenFile.

(** [str.strip], and [factory.create] of the format the user chose;
    neither is part of the sources. [create] is given the list [rows],
    which line 129 empties afterwards: it is taken to read the rows when
    it is called. *)
Variable strip : string → string.
Variable create : list string → NLPInstance.

(** Lines 126-128: an instance of the rows read so far. *)
Definition instance_of (rows : list string) : NLPInstance :=
  set_renderType (create rows) single.

(** Lines 120-131: the loop over the lines of the file; it is left when
    200 instances have been read. *)
Fixpoint read_lines (l : list string) (corpus : list NLPInstance)
    (rows : list string) (instanceNr : nat)
    : list NLPInstance * list string * nat :=
  match l with
  | [] => (corpus, rows, instanceNr)
  | line :: l' =>
      if bool_decide (instanceNr = 200%nat) then (corpus, rows, instanceNr)
      else
        let line := strip line in
        if bool_decide (line = EmptyString) then
          read_lines l' (corpus ++ [instance_of rows]) [] (instanceNr + 1)%nat
        else read_lines l' corpus (rows ++ [line]) instanceNr
  end.

(** Lines 107-136: the corpus built from the lines of the file. *)
Definition choosenFile (l : list string) : list NLPInstance :=
  let '(corpus, rows, instanceNr) := read_lines l [] [] 0%nat in
  if bool_decide (0 < length rows)%nat then corpus ++ [instance_of rows]
  else corpus.

(** The groups of stripped lines that the blank lines of [l] separate,
    after the rows [rows]; a last group without a line is no group. *)
Fixpoint groups_from (rows : list string) (l : list string)
    : list (list string) :=
  match l with
  | [] => match rows with [] => [] | _ => [rows] end
  | line :: l' =>
      if bool_decide (strip line = EmptyString)
      then rows :: groups_from [] l'
      else groups_from (rows ++ [strip line]) l'
  end.

End choosenFile.

End MyForm.

(** ** Inputs *)

(** [The dog runs] with a split point at [dog]; the filter asks for a
    word that is not there, and collapses. *)
Definition theDogRuns : NLPInstance :=
  mkNLPInstance [tokA; tokB; tokC] (AsList [edgeAB; edgeBC]) single [1].
Definition onlyBirds : EdgeTokenFilter.t :=
  EdgeTokenFilter.mk false true false {["bird"]}.

(** A span that runs from [dog] back to [The]. *)
Definition edgeBA : Edge :=
  mkEdge tokB tokA "NP" EmptyString "chunk" span EmptyString.
Definition backwards : NLPInstance :=
  mkNLPInstance [tokA; tokB] (AsList [edgeBA]) single [].

(** A format whose instances have a token for each row and no edge. *)
Definition one_token_per_row (rows : list string) : NLPInstance :=
  mkNLPInstance
    (imap (λ i row, mkToken (Z.of_nat i) {["Word" := row]}) rows)
    (AsList []) double [].

(** * Properties *)

(** ** Strings *)

Lemma app_String c p q : String c p +:+ q = String c (p +:+ q).
Proof. reflexivity. Qed.
Lemma prefix_spec (a s : string) :
  String.prefix a s = true ↔ ∃ q, s = a +:+ q.
Proof.
  revert s. induction a as [|c a IH]; intros s.
  - split; [intros _; by exists s | intros _; by destruct s].
  - destruct s as [|d s].
    + split; [done | intros [q Hq]; discriminate].
    + change (String.prefix (String c a) (String d s))
        with (if Ascii.ascii_dec c d then String.prefix a s else false).
      destruct (Ascii.ascii_dec c d) as [->|Hne].
      * rewrite IH. split; intros [q Hq]; exists q.
        -- rewrite app_String. congruence.
        -- rewrite app_String in Hq. congruence.
      * split; [done | intros [q Hq]; rewrite app_String in Hq; congruence].
Qed.

Lemma str_contains_nil a :
  str_contains a EmptyString = String.prefix a EmptyString || false.
Proof. reflexivity. Qed.
Lemma str_contains_String a d s :
  str_contains a (String d s) = String.prefix a (String d s) || str_contains a s.
Proof. reflexivity. Qed.

Lemma str_contains_spec (a s : string) :
  str_contains a s = true ↔ ∃ p q, s = p +:+ a +:+ q.
Proof.
  induction s as [|d s IH].
  - rewrite str_contains_nil, orb_false_r, prefix_spec. split.
    + intros [q Hq]. by exists EmptyString, q.
    + intros [p [q Hq]]. destruct p; [by exists q | discriminate].
  - rewrite str_contains_String, orb_true_iff, prefix_spec, IH. split.
    + intros [[q Hq] | [p [q Hq]]].
      * by exists EmptyString, q.
      * exists (String d p), q. rewrite app_String. by rewrite Hq.
    + intros [p [q Hq]]. destruct p as [|c p].
      * left. by exists q.
      * right. exists p, q. rewrite app_String in Hq. congruence.
Qed.

(** ** The label filter *)

Lemma first_match_spec alloweds edge result :
  EdgeLabelFilter.first_match alloweds edge result =
  if existsb (λ allowed, str_contains allowed (label edge)) alloweds
  then result ++ [edge] else result.
Proof.
  induction alloweds as [|a l IH]; simpl; [done|].
  destruct (str_contains a (label edge)); simpl; [done | apply IH].
Qed.

Lemma fold_left_append_filter {A} (P : A → bool) (l acc : list A) :
  fold_left (λ result x, if P x then result ++ [x] else result) l acc
  = acc ++ List.filter P l.
Proof.
  revert acc. induction l as [|x l IH]; intros acc; simpl.
  - by rewrite app_nil_r.
  - rewrite IH. destruct (P x); simpl; [by rewrite <- app_assoc | done].
Qed.

Lemma fold_left_ext {A B} (f g : A → B → A) (l : list B) (a : A) :
  (∀ a b, f a b = g a b) → fold_left f l a = fold_left g l a.
Proof.
  intros Hfg. revert a. induction l as [|b l IH]; intros a; simpl; [done|].
  by rewrite Hfg, IH.
Qed.

Lemma existsb_elements (P : string → bool) (X : gset string) :
  existsb P (elements X) = true ↔ ∃ a, a ∈ X ∧ P a = true.
Proof.
  rewrite existsb_exists. split; intros [a [Ha HP]]; exists a; split; try done.
  - apply elem_of_elements. by apply list_elem_of_In.
  - apply list_elem_of_In. by apply elem_of_elements.
Qed.

Lemma size_zero_iff (X : gset string) : size X = 0%nat ↔ X = ∅.
Proof.
  split; [intros H; by apply leibniz_equiv, size_empty_inv
        | intros ->; apply size_empty].
Qed.

Lemma label_filter_as_filter (self : EdgeLabelFilter.t) original :
  EdgeLabelFilter._allowedLabels self ≠ ∅ →
  EdgeLabelFilter.filterEdges self original =
  AsList (List.filter
            (λ e, existsb (λ allowed, str_contains allowed (label e))
                          (elements (EdgeLabelFilter._allowedLabels self)))
            (iter_edges original)).
Proof.
  intros Hne. unfold EdgeLabelFilter.filterEdges.
  rewrite bool_decide_eq_false_2 by (by rewrite size_zero_iff).
  f_equal.
  rewrite <- (app_nil_l (List.filter _ _)), <- fold_left_append_filter.
  apply fold_left_ext. intros result e. apply first_match_spec.
Qed.

(** C7: with a non-empty allowed set the label filter returns the input
    edges whose label contains an allowed string as a contiguous,
    case-sensitive substring, each as often as it occurs in the input and
    in the input order. *)
Theorem label_filterEdges_exact (self : EdgeLabelFilter.t)
    (original : collection) :
  EdgeLabelFilter._allowedLabels self ≠ ∅ →
  ∃ keep : Edge → bool,
    (∀ e, keep e = true ↔
          label_matches (EdgeLabelFilter._allowedLabels self) e) ∧
    EdgeLabelFilter.filterEdges self original =
    AsList (List.filter keep (iter_edges original)).
Proof.
  intros Hne. eexists. split; [|by apply label_filter_as_filter].
  intros e. rewrite existsb_elements. unfold label_matches. split.
  - intros (a & Ha & Hc). apply str_contains_spec in Hc as (p & q & Hpq).
    by exists a, p, q.
  - intros (a & p & q & Ha & Hpq). exists a. split; [done|].
    apply str_contains_spec. by exists p, q.
Qed.

Lemma label_allows_add self w v :
  EdgeLabelFilter.allows (EdgeLabelFilter.addAllowedLabel self w) v
  = if decide (v = w) then true else EdgeLabelFilter.allows self v.
Proof.
  unfold EdgeLabelFilter.allows. simpl. destruct (decide (v = w)) as [->|Hvw].
  - apply bool_decide_eq_true_2. set_solver.
  - apply bool_decide_ext. set_solver.
Qed.

Lemma label_allows_remove self self' w v :
  EdgeLabelFilter.removeAllowedLabel self w = Ok self' →
  EdgeLabelFilter.allows self' v
  = if decide (v = w) then false else EdgeLabelFilter.allows self v.
Proof.
  unfold EdgeLabelFilter.removeAllowedLabel. intros Hrm.
  case_bool_decide; [|done]. injection Hrm as <-.
  unfold EdgeLabelFilter.allows. simpl. destruct (decide (v = w)) as [->|Hvw].
  - apply bool_decide_eq_false_2. set_solver.
  - apply bool_decide_ext. set_solver.
Qed.

Lemma property_allows_add self w v :
  EdgeTokenFilter.allows (EdgeTokenFilter.addAllowedProperty self w) v
  = if decide (v = w) then true else EdgeTokenFilter.allows self v.
Proof.
  unfold EdgeTokenFilter.allows. simpl. destruct (decide (v = w)) as [->|Hvw].
  - apply bool_decide_eq_true_2. set_solver.
  - apply bool_decide_ext. set_solver.
Qed.

Lemma property_allows_remove self self' w v :
  EdgeTokenFilter.removeAllowedProperty self w = Ok self' →
  EdgeTokenFilter.allows self' v
  = if decide (v = w) then false else EdgeTokenFilter.allows self v.
Proof.
  unfold EdgeTokenFilter.removeAllowedProperty. intros Hrm.
  case_bool_decide; [|done]. injection Hrm as <-.
  unfold EdgeTokenFilter.allows. simpl. destruct (decide (v = w)) as [->|Hvw].
  - apply bool_decide_eq_false_2. set_solver.
  - apply bool_decide_ext. set_solver.
Qed.

Lemma label_kept_not_allowed self s l p q original e :
  s ∈ EdgeLabelFilter._allowedLabels self →
  l ∉ EdgeLabelFilter._allowedLabels self →
  l = p +:+ s +:+ q →
  e ∈ iter_edges original → label e = l →
  EdgeLabelFilter.allows self l = false ∧
  e ∈ iter_edges (EdgeLabelFilter.filterEdges self original).
Proof.
  intros Hs Hl Hpq He Hlab. split; [by apply bool_decide_eq_false_2|].
  rewrite label_filter_as_filter by set_solver. simpl.
  apply list_elem_of_In, filter_In. split; [by apply list_elem_of_In|].
  apply existsb_elements. exists s. split; [done|].
  apply str_contains_spec. exists p, q. congruence.
Qed.

(** C10: [allows] is exact membership in the allowed set as the calls of
    add, remove and clear have left it, for both filters; a label that only
    contains an allowed string is not allowed, though the label filter keeps
    every edge that carries it. *)
Theorem allows_exact_membership :
  (∀ self v, EdgeLabelFilter.allows self v = true ↔
             v ∈ EdgeLabelFilter._allowedLabels self) ∧
  (∀ l v, EdgeLabelFilter.allows (EdgeLabelFilter.init l) v = true ↔ v ∈ l) ∧
  (∀ self w v, EdgeLabelFilter.allows (EdgeLabelFilter.addAllowedLabel self w) v
               = if decide (v = w) then true else EdgeLabelFilter.allows self v) ∧
  (∀ self self' w v,
     EdgeLabelFilter.removeAllowedLabel self w = Ok self' →
     EdgeLabelFilter.allows self' v
     = if decide (v = w) then false else EdgeLabelFilter.allows self v) ∧
  (∀ self v, EdgeLabelFilter.allows (EdgeLabelFilter.clear self) v = false) ∧
  (∀ self v, EdgeTokenFilter.allows self v = true ↔
             v ∈ EdgeTokenFilter._allowedProperties self) ∧
  (∀ l v, EdgeTokenFilter.allows (EdgeTokenFilter.init l) v = true ↔ v ∈ l) ∧
  (∀ self w v,
     EdgeTokenFilter.allows (EdgeTokenFilter.addAllowedProperty self w) v
     = if decide (v = w) then true else EdgeTokenFilter.allows self v) ∧
  (∀ self self' w v,
     EdgeTokenFilter.removeAllowedProperty self w = Ok self' →
     EdgeTokenFilter.allows self' v
     = if decide (v = w) then false else EdgeTokenFilter.allows self v) ∧
  (∀ self v, EdgeTokenFilter.allows (EdgeTokenFilter.clear self) v = false) ∧
  (∀ self s l p q original e,
     s ∈ EdgeLabelFilter._allowedLabels self →
     l ∉ EdgeLabelFilter._allowedLabels self →
     l = p +:+ s +:+ q →
     e ∈ iter_edges original → label e = l →
     EdgeLabelFilter.allows self l = false ∧
     e ∈ iter_edges (EdgeLabelFilter.filterEdges self original)).
Proof.
  split_and!.
  - intros self v. apply bool_decide_eq_true.
  - intros l v. unfold EdgeLabelFilter.allows. simpl.
    rewrite bool_decide_eq_true. set_solver.
  - apply label_allows_add.
  - apply label_allows_remove.
  - intros self v. apply bool_decide_eq_false_2. simpl. set_solver.
  - intros self v. apply bool_decide_eq_true.
  - intros l v. unfold EdgeTokenFilter.allows. simpl.
    rewrite bool_decide_eq_true. set_solver.
  - apply property_allows_add.
  - apply property_allows_remove.
  - intros self v. apply bool_decide_eq_false_2. simpl. set_solver.
  - apply label_kept_not_allowed.
Qed.

(** ** The property filter, without paths *)

Lemma propertiesContain_spec tok allowed wholeWords :
  propertiesContain tok allowed wholeWords = true ↔
  token_qualifies allowed wholeWords tok.
Proof.
  unfold propertiesContain, token_qualifies. rewrite existsb_exists. split.
  - intros (value & Hin & Hex).
    apply list_elem_of_In, list_elem_of_fmap in Hin as ([name v] & -> & Hin).
    apply elem_of_map_to_list in Hin. simpl in Hex.
    apply existsb_elements in Hex as (a & Ha & Hm).
    exists name, v, a. repeat split; try done.
    destruct wholeWords.
    + by apply bool_decide_eq_true_1 in Hm.
    + by apply str_contains_spec.
  - intros (name & value & a & Hl & Ha & Hm). exists value. split.
    + apply list_elem_of_In, list_elem_of_fmap. exists (name, value).
      split; [done | by apply elem_of_map_to_list].
    + apply existsb_elements. exists a. split; [done|].
      destruct wholeWords.
      * by apply bool_decide_eq_true_2.
      * by apply str_contains_spec.
Qed.

(** ** Loops *)

(** A loop whose every round succeeds and adds to what holds of the state
    exactly what [adds] says for the element visited succeeds, and adds
    what [adds] says for some element. *)
Lemma for_each_adds {S X T} (body : S → X → outcome S)
    (holds : S → T → Prop) (adds : X → T → Prop) (l : list X) (s : S) :
  (∀ s x, x ∈ l →
     ∃ s', body s x = Ok s' ∧ ∀ t, holds s' t ↔ holds s t ∨ adds x t) →
  ∃ s', for_each body l s = Ok s' ∧
        ∀ t, holds s' t ↔ holds s t ∨ ∃ x, x ∈ l ∧ adds x t.
Proof.
  revert s. induction l as [|x l IH]; intros s Hbody; simpl.
  - exists s. split; [done|]. intros t. split; [by left|].
    intros [?|(x & Hx & _)]; [done|]. by apply elem_of_nil in Hx.
  - destruct (Hbody s x) as (s1 & -> & H1); [by left|]. simpl.
    destruct (IH s1) as (s2 & -> & H2).
    { intros s' y Hy. apply Hbody. by right. }
    exists s2. split; [done|]. intros t. rewrite H2, H1. split.
    + intros [[?|?]|(y & Hy & ?)]; [by left| |].
      * right. exists x. split; [by left | done].
      * right. exists y. split; [by right | done].
    + intros [?|(y & Hy & ?)]; [by left; left|].
      apply elem_of_cons in Hy as [->|Hy]; [by left; right|].
      right. by exists y.
Qed.

(** A loop whose body leaves the state alone returns it. *)
Lemma for_each_skip {S X} (body : S → X → outcome S) (l : list X) (s : S) :
  (∀ s x, body s x = Ok s) → for_each body l s = Ok s.
Proof.
  intros Hbody. induction l as [|x l IH]; simpl; [done|].
  by rewrite Hbody.
Qed.

(** ** The index of paths *)

Lemma recorded_empty a b path : ¬ recorded ∅ a b path.
Proof. intros (ends & paths & H & _). by rewrite lookup_empty in H. Qed.

(** [recorded] is membership in what [getPaths] returns. *)
Lemma recorded_getPaths idx a b q :
  recorded idx a b q ↔
  ∃ paths, EdgeTokenFilter.getPaths idx a b = Ok (Some paths) ∧ q ∈ paths.
Proof.
  unfold recorded, EdgeTokenFilter.getPaths, py_lookup. split.
  - intros (ends & paths & -> & Hb & Hq). simpl. rewrite Hb. simpl.
    by exists paths.
  - intros (paths & Hget & Hq). destruct (idx !! a) as [ends|]; [|done].
    destruct (ends !! b) as [paths'|] eqn:Hb; simpl in Hget; [|done].
    injection Hget as ->. by exists ends, paths.
Qed.

Lemma recorded_addPath idx From to path a b q :
  recorded (EdgeTokenFilter.addPath idx From to path) a b q ↔
  recorded idx a b q ∨ (a = From ∧ b = to ∧ q = path).
Proof.
  unfold recorded, EdgeTokenFilter.addPath. split.
  - intros (ends & paths & Ha & Hb & Hq).
    destruct (decide (From = a)) as [->|Hne].
    + rewrite lookup_insert_eq in Ha. injection Ha as <-.
      destruct (decide (to = b)) as [->|Hne'].
      * rewrite lookup_insert_eq in Hb. injection Hb as <-.
        apply elem_of_union in Hq as [Hq|Hq].
        -- right. apply elem_of_singleton in Hq. done.
        -- left. destruct (idx !! a) as [ends|] eqn:Ea; simpl in Hq;
             [|by rewrite lookup_empty in Hq].
           destruct (ends !! b) as [paths|] eqn:Eb; simpl in Hq;
             [|by apply not_elem_of_empty in Hq].
           by exists ends, paths.
      * rewrite lookup_insert_ne in Hb by done. left.
        destruct (idx !! a) as [ends|] eqn:Ea; simpl in Hb;
          [|by rewrite lookup_empty in Hb].
        by exists ends, paths.
    + rewrite lookup_insert_ne in Ha by done. left. by exists ends, paths.
  - intros [(ends & paths & Ha & Hb & Hq)|(-> & -> & ->)].
    + destruct (decide (From = a)) as [->|Hne].
      * rewrite Ha. simpl. destruct (decide (to = b)) as [->|Hne'].
        -- rewrite Hb. simpl. eexists. eexists. rewrite !lookup_insert_eq.
           split; [done|]. split; [done|]. apply elem_of_union. by right.
        -- eexists. exists paths. rewrite lookup_insert_eq.
           split; [done|]. by rewrite lookup_insert_ne.
      * exists ends, paths. by rewrite lookup_insert_ne.
    + eexists. eexists. rewrite !lookup_insert_eq.
      split; [done|]. split; [done|]. apply elem_of_union. left.
      by apply elem_of_singleton.
Qed.

Lemma recorded_direct edges a b q :
  recorded (EdgeTokenFilter.direct edges) a b q ↔
  ∃ e, e ∈ edges ∧ q = {[e]} ∧ joins e a b.
Proof.
  unfold EdgeTokenFilter.direct.
  assert (∀ acc,
    recorded (fold_left (λ paths edge,
                let path : gset Edge := {[edge]} ∪ ∅ in
                EdgeTokenFilter.addPath
                  (EdgeTokenFilter.addPath paths (From edge) (To edge) path)
                  (To edge) (From edge) path) edges acc) a b q ↔
    recorded acc a b q ∨ ∃ e, e ∈ edges ∧ q = {[e]} ∧ joins e a b) as Hgen.
  { induction edges as [|e l IH]; intros acc; simpl.
    - split; [by left|]. intros [?|(e & He & _)]; [done|].
      by apply elem_of_nil in He.
    - rewrite IH, !recorded_addPath, (right_id_L ∅ (∪)). unfold joins. split.
      + intros [[[?|(-> & -> & ->)]|(-> & -> & ->)]|(e' & He' & ?)].
        * by left.
        * right. exists e. split; [by left|]. split; [done|]. by left.
        * right. exists e. split; [by left|]. split; [done|]. by right.
        * right. exists e'. split; [by right | done].
      + intros [?|(e' & He' & -> & Hj)]; [by left; left; left|].
        apply elem_of_cons in He' as [->|He'].
        * left. destruct Hj as [[-> ->]|[-> ->]]; [left; right | right]; done.
        * right. by exists e'. }
  rewrite Hgen. split; [|by right].
  intros [H|?]; [|done]. by apply recorded_empty in H.
Qed.

(** ** Collapsing *)

Lemma py_getitem_lookup {A} (l : list A) (i : Z) (x : A) :
  0 ≤ i → l !! Z.to_nat i = Some x → py_getitem l i = Ok x.
Proof.
  intros Hi Hx. unfold py_getitem.
  rewrite (bool_decide_eq_false_2 (i < 0)) by lia.
  rewrite (bool_decide_eq_false_2 (i < 0)) by lia.
  by rewrite Hx.
Qed.

Lemma py_getitem_nat {A} (l : list A) (k : nat) :
  py_getitem l (Z.of_nat k) =
  match l !! k with Some x => Ok x | None => Raise IndexError end.
Proof.
  unfold py_getitem.
  rewrite (bool_decide_eq_false_2 (Z.of_nat k < 0)) by lia.
  rewrite (bool_decide_eq_false_2 (Z.of_nat k < 0)) by lia.
  by rewrite Nat2Z.id.
Qed.

Lemma py_lookup_Some `{Countable K} {V} (d : gmap K V) (k : K) (v : V) :
  d !! k = Some v → py_lookup d k = Ok v.
Proof. intros Hk. unfold py_lookup. by rewrite Hk. Qed.

Lemma elem_of_py_range a b i : i ∈ py_range a b ↔ a ≤ i < b.
Proof.
  unfold py_range. rewrite list_elem_of_fmap. split.
  - intros (k & -> & Hk%elem_of_seq). lia.
  - intros Hi. exists (Z.to_nat (i - a)). split; [lia|].
    apply elem_of_seq. lia.
Qed.

(** In a well-formed instance a token sits at its index. *)
Lemma wf_token_at inst tok :
  well_formed inst → tok ∈ tokens inst →
  0 ≤ index tok < Z.of_nat (length (tokens inst)) ∧
  tokens inst !! Z.to_nat (index tok) = Some tok.
Proof.
  intros Hwf (i & Hi)%list_elem_of_lookup.
  pose proof (wf_dense inst Hwf i tok Hi) as Hidx.
  pose proof (lookup_lt_Some _ _ _ Hi) as Hlt.
  rewrite Hidx, Nat2Z.id. split; [lia | done].
Qed.

Lemma wf_token_eq inst a b :
  well_formed inst → a ∈ tokens inst → b ∈ tokens inst →
  index a = index b → a = b.
Proof.
  intros Hwf Ha Hb Hab.
  destruct (wf_token_at inst a Hwf Ha) as [_ Hla].
  destruct (wf_token_at inst b Hwf Hb) as [_ Hlb].
  rewrite Hab in Hla. congruence.
Qed.

(** The set built by lines 293-301 is the set of surviving tokens. *)
Lemma touched_spec inst kept :
  well_formed inst →
  (∀ e, e ∈ kept → e ∈ iter_edges (edges inst)) →
  ∃ toks, EdgeTokenFilter.touched inst kept = Ok toks ∧
          ∀ tok, tok ∈ toks ↔ survives inst kept tok.
Proof.
  intros Hwf Hkept. unfold EdgeTokenFilter.touched.
  destruct (for_each_adds
    (λ tokens e,
       match renderType e with
       | dependency => Ok ({[To e]} ∪ ({[From e]} ∪ tokens))
       | span =>
           for_each (λ tokens i,
                       tok ← getToken inst i; Ok ({[tok]} ∪ tokens))
                    (py_range (index (From e)) (index (To e) + 1)) tokens
       end)
    (λ (s : gset Token) tok, tok ∈ s)
    (λ e tok, tok ∈ tokens inst ∧
              match renderType e with
              | dependency => tok = From e ∨ tok = To e
              | span => index (From e) ≤ index tok ≤ index (To e)
              end)
    kept ∅) as (toks & Htoks & Hin).
  - intros s e He. apply Hkept in He.
    destruct (wf_ends inst Hwf e He) as [Hf Ht].
    destruct (renderType e) eqn:Hr.
    + eexists. split; [done|]. intros tok.
      rewrite !elem_of_union, !elem_of_singleton. split.
      * intros [->|[->|?]]; [right|right|left]; naive_solver.
      * intros [?|[_ [-> | ->]]]; naive_solver.
    + destruct (wf_token_at inst _ Hwf Hf) as [Hfi _].
      destruct (wf_token_at inst _ Hwf Ht) as [Hti _].
      destruct (for_each_adds
        (λ tokens i, tok ← getToken inst i; Ok ({[tok]} ∪ tokens))
        (λ (s : gset Token) tok, tok ∈ s)
        (λ i tok, 0 ≤ i ∧ tokens inst !! Z.to_nat i = Some tok)
        (py_range (index (From e)) (index (To e) + 1)) s)
        as (s' & Hs' & Hin').
      * intros s1 i Hi%elem_of_py_range.
        destruct (lookup_lt_is_Some_2 (tokens inst) (Z.to_nat i))
          as [tok Htok]; [lia|].
        exists ({[tok]} ∪ s1). unfold getToken.
        rewrite (py_getitem_lookup _ _ tok) by (done || lia).
        split; [done|]. intros tok'.
        rewrite elem_of_union, elem_of_singleton. split.
        -- intros [->|?]; [right | by left]. split; [lia | done].
        -- intros [?|[_ ?]]; [by right | left; congruence].
      * exists s'. split; [done|]. intros tok. rewrite Hin'.
        split; (intros [?|H]; [by left | right]).
        -- destruct H as (i & Hi%elem_of_py_range & Hi0 & Htok).
           split; [by eapply list_elem_of_lookup_2|].
           rewrite (wf_dense inst Hwf _ _ Htok). lia.
        -- destruct H as (Htok & Hrange).
           destruct (wf_token_at inst _ Hwf Htok) as [Hi Hl].
           exists (index tok). rewrite elem_of_py_range.
           split; [lia|]. split; [lia | done].
  - exists toks. split; [done|]. intros tok. rewrite Hin.
    unfold survives. split.
    + intros [H|(e & He & Htok & Hm)]; [by apply not_elem_of_empty in H|].
      split; [done|]. by exists e.
    + intros (Htok & e & He & Hm). right. by exists e.
Qed.

Lemma for_each_app {S X} (body : S → X → outcome S) (l1 l2 : list X) (s : S) :
  for_each body (l1 ++ l2) s = s' ← for_each body l1 s; for_each body l2 s'.
Proof.
  revert s. induction l1 as [|x l1 IH]; intros s; simpl; [done|].
  destruct (body s x); simpl; [apply IH | done | done].
Qed.

Local Instance by_index_trans : Transitive EdgeTokenFilter.by_index.
Proof. intros a b c. unfold EdgeTokenFilter.by_index. lia. Qed.

Local Instance by_index_total : Total EdgeTokenFilter.by_index.
Proof. intros a b. unfold EdgeTokenFilter.by_index. lia. Qed.

Lemma StronglySorted_lookup_lt {A} (R : relation A) (l : list A) i j a b :
  StronglySorted R l → (i < j)%nat →
  l !! i = Some a → l !! j = Some b → R a b.
Proof.
  intros Hs. revert i j a b.
  induction Hs as [|x l Hs IH Hall]; intros i j a b Hij Ha Hb.
  - by rewrite lookup_nil in Ha.
  - destruct j as [|j]; [lia|]. simpl in Hb. destruct i as [|i].
    + injection Ha as <-. rewrite Forall_forall in Hall.
      apply Hall. by eapply list_elem_of_lookup_2.
    + simpl in Ha. apply (IH i j); [lia | done | done].
Qed.

(** Line 303: the surviving tokens, by strictly increasing index. *)
Lemma sorted_spec inst (toks : gset Token) :
  well_formed inst →
  (∀ tok, tok ∈ toks → tok ∈ tokens inst) →
  (∀ tok, tok ∈ EdgeTokenFilter.sorted toks ↔ tok ∈ toks) ∧
  NoDup (EdgeTokenFilter.sorted toks) ∧
  increasing (EdgeTokenFilter.sorted toks) ∧
  length (EdgeTokenFilter.sorted toks) = size toks.
Proof.
  intros Hwf Hsub. unfold EdgeTokenFilter.sorted.
  pose proof (merge_sort_Permutation EdgeTokenFilter.by_index (elements toks))
    as Hperm.
  assert (∀ tok, tok ∈ merge_sort EdgeTokenFilter.by_index (elements toks)
                 ↔ tok ∈ toks) as Hin.
  { intros tok. by rewrite Hperm, elem_of_elements. }
  assert (NoDup (merge_sort EdgeTokenFilter.by_index (elements toks))) as Hnd.
  { rewrite Hperm. apply NoDup_elements. }
  split; [done|]. split; [done|]. split.
  - intros i j a b Hij Ha Hb.
    pose proof (StronglySorted_merge_sort EdgeTokenFilter.by_index
                  (elements toks)) as Hs.
    pose proof (StronglySorted_lookup_lt _ _ i j a b Hs Hij Ha Hb) as Hle.
    unfold EdgeTokenFilter.by_index in Hle.
    destruct (decide (index a = index b)) as [Heq|Hne]; [|lia].
    apply (wf_token_eq inst) in Heq; try done.
    + subst b. pose proof (NoDup_lookup _ i j a Hnd Ha Hb). lia.
    + apply Hsub, Hin. by eapply list_elem_of_lookup_2.
    + apply Hsub, Hin. by eapply list_elem_of_lookup_2.
  - by rewrite Hperm.
Qed.

(** Lines 305-313: the new tokens in order, and the two dictionaries. *)
Lemma renumber_spec inst (l : list Token) :
  well_formed inst → (∀ tok, tok ∈ l → tok ∈ tokens inst) → NoDup l →
  ∃ old2new new2old,
    EdgeTokenFilter.renumber inst l = Ok (imap new_token l, old2new, new2old) ∧
    ∀ (k : nat) tok, l !! k = Some tok →
      old2new !! tok = Some (new_token k tok) ∧
      new2old !! new_token k tok = Some tok.
Proof.
  intros Hwf. unfold EdgeTokenFilter.renumber.
  induction l as [|x l IH] using rev_ind; intros Hsub Hnd.
  - exists ∅, ∅. split; [done|]. intros k tok Hk. by rewrite lookup_nil in Hk.
  - apply NoDup_app in Hnd as (Hnd & Hnx & _).
    destruct IH as (o2n & n2o & Hrun & Hmaps); [|done|].
    { intros tok Htok. apply Hsub, elem_of_app. by left. }
    rewrite for_each_app, Hrun. simpl.
    assert (x ∈ tokens inst) as Hx.
    { apply Hsub, elem_of_app. right. by apply list_elem_of_here. }
    destruct (wf_token_at inst x Hwf Hx) as [Hxi Hxl].
    rewrite (py_getitem_lookup _ _ x) by (lia || done). simpl.
    rewrite length_imap.
    assert (merge (mkToken (Z.of_nat (length l)) ∅) x = new_token (length l) x)
      as ->.
    { unfold merge, new_token. simpl. by rewrite (right_id_L ∅ (∪)). }
    eexists. eexists. split.
    { rewrite imap_app. simpl. by rewrite Nat.add_0_r. }
    intros k tok Hk. apply lookup_app_Some in Hk as [Hk|[Hlen Hk]].
    + destruct (Hmaps k tok Hk) as [Ho Hn].
      pose proof (lookup_lt_Some _ _ _ Hk) as Hlt.
      rewrite lookup_insert_ne, lookup_insert_ne; [done| |].
      * unfold new_token. intros [= Hidx _]. lia.
      * intros ->. apply (Hnx tok); [by eapply list_elem_of_lookup_2|].
        by apply list_elem_of_here.
    + apply list_lookup_singleton_Some in Hk as [Hk ->].
      assert (k = length l) as -> by lia.
      by rewrite !lookup_insert_eq.
Qed.

(** Lines 315-318: the kept edges between the new tokens. *)
Lemma rewire_spec (l : list Token) (old2new : gmap Token Token) kept :
  (∀ (k : nat) tok, l !! k = Some tok →
                    old2new !! tok = Some (new_token k tok)) →
  (∀ e, e ∈ kept → From e ∈ l ∧ To e ∈ l) →
  ∃ s, EdgeTokenFilter.rewire old2new kept = Ok s ∧
       ∀ e', e' ∈ s ↔ ∃ e, e ∈ kept ∧ rewired l e e'.
Proof.
  intros Hmap Hends. unfold EdgeTokenFilter.rewire.
  destruct (for_each_adds
    (λ updatedEdges e,
       f ← py_lookup old2new (From e);
       t ← py_lookup old2new (To e);
       Ok ({[mkEdge f t (label e) (note e) (type e) (renderType e)
                    (description e)]} ∪ updatedEdges))
    (λ (s : gset Edge) e', e' ∈ s) (λ e e', rewired l e e') kept ∅)
    as (s & Hs & Hin).
  - intros s e He. destruct (Hends e He) as [Hf Ht].
    apply list_elem_of_lookup in Hf as (i & Hi).
    apply list_elem_of_lookup in Ht as (j & Hj).
    unfold py_lookup. rewrite (Hmap i _ Hi), (Hmap j _ Hj). simpl.
    eexists. split; [done|]. intros e'.
    rewrite elem_of_union, elem_of_singleton. unfold rewired. split.
    + intros [->|?]; [right | by left]. by exists i, j.
    + intros [?|(i' & j' & Hi' & Hj' & ->)]; [by right | left].
      pose proof (Hmap i' _ Hi') as Hi2. pose proof (Hmap j' _ Hj') as Hj2.
      rewrite (Hmap i _ Hi) in Hi2. rewrite (Hmap j _ Hj) in Hj2.
      congruence.
  - exists s. split; [done|]. intros e'. rewrite Hin. split.
    + intros [H|?]; [by apply not_elem_of_empty in H | done].
    + by right.
Qed.

(** *** The split points *)

Section resplit.

(** The surviving tokens in their new order, the new tokens, and the
    dictionary back from new to old. *)
Variable l : list Token.
Variable updatedTokens : list Token.
Variable new2old : gmap Token Token.
Hypothesis back : ∀ (k : nat) tok, l !! k = Some tok →
  ∃ newToken, updatedTokens !! k = Some newToken ∧
              new2old !! newToken = Some tok.

Lemma advance_spec sp fuel (c : nat) tok :
  l !! c = Some tok →
  (length l - 1 - c ≤ fuel)%nat →
  (∀ (j : nat) o, (j < c)%nat → (index <$> l) !! j = Some o → o < sp) →
  ∃ c' : nat,
    EdgeTokenFilter.advance fuel (length l) updatedTokens new2old sp c tok
    = Ok c' ∧
    (c' < length l)%nat ∧
    (∀ (j : nat) o, (j < c')%nat → (index <$> l) !! j = Some o → o < sp) ∧
    remapped (index <$> l) sp c'.
Proof.
  revert c tok. induction fuel as [|fuel IH]; intros c tok Hc Hfuel Hbefore.
  - pose proof (lookup_lt_Some _ _ _ Hc) as Hlt. simpl.
    rewrite (bool_decide_eq_false_2 (c + 1 < length l)%nat) by lia. simpl.
    exists c. split; [done|]. split; [done|]. split; [done|].
    destruct (decide (sp ≤ index tok)) as [Hsp|Hsp].
    + left. exists (index tok). rewrite list_lookup_fmap, Hc. done.
    + right. split; [|rewrite length_fmap; lia].
      intros o (j & Hj)%list_elem_of_lookup.
      pose proof (lookup_lt_Some _ _ _ Hj) as Hjl. rewrite length_fmap in Hjl.
      destruct (decide (j = c)) as [->|Hjc].
      * rewrite list_lookup_fmap, Hc in Hj. injection Hj as <-. lia.
      * apply (Hbefore j); [lia | done].
  - pose proof (lookup_lt_Some _ _ _ Hc) as Hlt. simpl.
    destruct (decide (c + 1 < length l)%nat) as [Hnext|Hlast];
      [destruct (decide (index tok < sp)) as [Hlow|Hhigh]|].
    + rewrite !bool_decide_eq_true_2 by done. simpl.
      destruct (lookup_lt_is_Some_2 l (c + 1)) as [tok' Htok']; [done|].
      destruct (back _ _ Htok') as (newToken & Hnew & Hold).
      rewrite py_getitem_nat, Hnew. simpl.
      rewrite (py_lookup_Some _ _ _ Hold). simpl.
      apply IH; [done | lia |].
      intros j o Hj Ho. destruct (decide (j = c)) as [->|Hjc].
      * rewrite list_lookup_fmap, Hc in Ho. injection Ho as <-. done.
      * apply (Hbefore j); [lia | done].
    + rewrite (bool_decide_eq_false_2 (index tok < sp)) by done.
      rewrite andb_false_r.
      exists c. split; [done|]. split; [done|]. split; [done|].
      left. exists (index tok). rewrite list_lookup_fmap, Hc.
      split; [done|]. split; [lia | done].
    + rewrite (bool_decide_eq_false_2 (c + 1 < length l)%nat) by done. simpl.
      exists c. split; [done|]. split; [done|]. split; [done|].
      destruct (decide (sp ≤ index tok)) as [Hsp|Hsp].
      * left. exists (index tok). rewrite list_lookup_fmap, Hc. done.
      * right. split; [|rewrite length_fmap; lia].
        intros o (j & Hj)%list_elem_of_lookup.
        pose proof (lookup_lt_Some _ _ _ Hj) as Hjl.
        rewrite length_fmap in Hjl.
        destruct (decide (j = c)) as [->|Hjc].
        -- rewrite list_lookup_fmap, Hc in Hj. injection Hj as <-. lia.
        -- apply (Hbefore j); [lia | done].
Qed.

Lemma resplit_loop (sps : list Z) (acc : list Z) (c : nat) :
  Sorted Z.le sps → (c < length l)%nat →
  (∀ (j : nat) o sp, (j < c)%nat → (index <$> l) !! j = Some o →
                     sp ∈ sps → o < sp) →
  ∃ (ks : list nat) (c' : nat),
    for_each (λ '(splitPoints, newTokenIndex) oldSplitPoint,
      newToken ← py_getitem updatedTokens (Z.of_nat newTokenIndex);
      oldToken ← py_lookup new2old newToken;
      newTokenIndex ← EdgeTokenFilter.advance (length l) (length l)
                        updatedTokens new2old oldSplitPoint
                        newTokenIndex oldToken;
      Ok (splitPoints ++ [Z.of_nat newTokenIndex], newTokenIndex))
      sps (acc, c)
    = Ok (acc ++ (Z.of_nat <$> ks), c') ∧
    Forall2 (remapped (index <$> l)) sps ks.
Proof.
  revert acc c. induction sps as [|sp sps IH]; intros acc c Hsorted Hc Hbefore.
  - exists [], c. simpl. by rewrite app_nil_r.
  - simpl. destruct (lookup_lt_is_Some_2 l c) as [tok Htok]; [done|].
    destruct (back _ _ Htok) as (newToken & Hnew & Hold).
    rewrite py_getitem_nat, Hnew. simpl.
    rewrite (py_lookup_Some _ _ _ Hold). simpl.
    destruct (advance_spec sp (length l) c tok Htok) as (c' & -> & Hc' & Hb' & Hr);
      [lia| |].
    { intros j o Hj Ho. apply (Hbefore j o sp Hj Ho). by left. }
    simpl. apply Sorted_StronglySorted in Hsorted; [|intros ???; lia].
    apply StronglySorted_inv in Hsorted as [Hsorted Hall].
    destruct (IH (acc ++ [Z.of_nat c']) c') as (ks & c'' & -> & Hks).
    + by apply StronglySorted_Sorted.
    + done.
    + intros j o sp' Hj Ho Hsp'. rewrite Forall_forall in Hall.
      specialize (Hall sp' Hsp'). specialize (Hb' j o Hj Ho). lia.
    + exists (c' :: ks), c''. split.
      * by rewrite <- app_assoc.
      * by constructor.
Qed.

(** Lines 320-329 when a token survives: every split point is remapped. *)
Lemma resplit_spec (sps : list Z) :
  Sorted Z.le sps → (0 < length l)%nat →
  ∃ ks : list nat,
    EdgeTokenFilter.resplit (length l) updatedTokens new2old sps
    = Ok (Z.of_nat <$> ks) ∧
    Forall2 (remapped (index <$> l)) sps ks.
Proof.
  intros Hsorted Hlen. unfold EdgeTokenFilter.resplit.
  destruct (resplit_loop sps [] 0%nat) as (ks & c' & -> & Hks);
    [done | done | intros; lia|].
  by exists ks.
Qed.

End resplit.

(** Lines 320-329 when no token survives: the first split point raises
    at [updatedTokens[0]]. *)
Lemma resplit_nothing_left new2old sp sps :
  EdgeTokenFilter.resplit 0 [] new2old (sp :: sps) = Raise IndexError.
Proof. reflexivity. Qed.

Lemma resplit_no_split_points n updatedTokens new2old :
  EdgeTokenFilter.resplit n updatedTokens new2old [] = Ok [].
Proof. reflexivity. Qed.

Section property_filter.

Variable getTypePrefix : Edge → string.
Variable iter_next : gset Edge → outcome Edge.
Variable path_in : gset Edge → gset Edge → bool.

Local Abbreviation calculatePaths :=
  (EdgeTokenFilter.calculatePaths getTypePrefix iter_next path_in).
Local Abbreviation filterEdges :=
  (EdgeTokenFilter.filterEdges getTypePrefix iter_next path_in).
Local Abbreviation filter :=
  (EdgeTokenFilter.filter getTypePrefix iter_next path_in).

(** *** calculatePaths *)

(** [getTos()] is empty, so a round of [while True] finds no path. *)
Lemma longer_empty previous first :
  EdgeTokenFilter.longer getTypePrefix iter_next path_in previous first = Ok ∅.
Proof. unfold EdgeTokenFilter.longer. by apply for_each_skip. Qed.

(** The loop ends in its first round, with the empty level appended. *)
Lemma levels_once fuel previous first pathsPerLength :
  EdgeTokenFilter.levels getTypePrefix iter_next path_in (S fuel)
    previous first pathsPerLength
  = Ok (pathsPerLength ++ [∅]).
Proof.
  simpl. rewrite longer_empty. simpl. unfold EdgeTokenFilter.len.
  by rewrite !bool_decide_eq_true_2 by apply map_size_empty.
Qed.

Lemma getTos_spec (p : gmap Token (gmap Token (gset (gset Edge)))) From to :
  to ∈ EdgeTokenFilter.getTos p (EdgeTokenFilter.TokenInstance From) ↔
  ∃ ends paths, p !! From = Some ends ∧ ends !! to = Some paths.
Proof.
  unfold EdgeTokenFilter.getTos. simpl. split.
  - destruct (p !! From) as [ends|]; [|by intros ?%elem_of_nil].
    intros [paths Hp]%elem_of_elements%elem_of_dom. by exists ends, paths.
  - intros (ends & paths & -> & Hp).
    apply elem_of_elements, elem_of_dom. by exists paths.
Qed.

Lemma keys_spec (p : gmap Token (gmap Token (gset (gset Edge)))) From :
  From ∈ EdgeTokenFilter.keys p ↔ is_Some (p !! From).
Proof. unfold EdgeTokenFilter.keys. by rewrite elem_of_elements, elem_of_dom. Qed.

(** Iterating over the paths between a start and one of its ends. *)
Lemma getPaths_iter (p : gmap Token (gmap Token (gset (gset Edge)))) From to :
  to ∈ EdgeTokenFilter.getTos p (EdgeTokenFilter.TokenInstance From) →
  ∃ l, (r ← EdgeTokenFilter.getPaths p From to; EdgeTokenFilter.iter_paths r)
       = Ok l ∧ ∀ q, q ∈ l ↔ recorded p From to q.
Proof.
  intros (ends & paths & Hf & Ht)%getTos_spec.
  exists (elements paths). unfold EdgeTokenFilter.getPaths, py_lookup.
  rewrite Hf. simpl. rewrite Ht. simpl. split; [done|].
  intros q. rewrite elem_of_elements. unfold recorded. split.
  - intros Hq. by exists ends, paths.
  - intros (ends' & paths' & Hf' & Ht' & Hq). congruence.
Qed.

Lemma gather_spec pathsPerLength :
  ∃ result, EdgeTokenFilter.gather pathsPerLength = Ok result ∧
    ∀ a b q, recorded result a b q ↔
             ∃ p, p ∈ pathsPerLength ∧ recorded p a b q.
Proof.
  unfold EdgeTokenFilter.gather.
  destruct (for_each_adds
    (λ result p,
       for_each (λ result From,
         for_each (λ result to,
           r ← EdgeTokenFilter.getPaths p From to;
           l ← EdgeTokenFilter.iter_paths r;
           for_each (λ result path,
                       Ok (EdgeTokenFilter.addPath result From to path))
                    l result)
           (EdgeTokenFilter.getTos p (EdgeTokenFilter.TokenInstance From))
           result)
         (EdgeTokenFilter.keys p) result)
    recorded3 recorded3 pathsPerLength ∅) as (result & Hres & Hrec).
  - intros s p _.
    destruct (for_each_adds
      (λ result From,
         for_each (λ result to,
           r ← EdgeTokenFilter.getPaths p From to;
           l ← EdgeTokenFilter.iter_paths r;
           for_each (λ result path,
                       Ok (EdgeTokenFilter.addPath result From to path))
                    l result)
           (EdgeTokenFilter.getTos p (EdgeTokenFilter.TokenInstance From))
           result)
      recorded3 (λ From t, t.1.1 = From ∧ recorded3 p t)
      (EdgeTokenFilter.keys p) s) as (s' & Hs' & Hrec').
    + intros s1 From _.
      destruct (for_each_adds
        (λ result to,
           r ← EdgeTokenFilter.getPaths p From to;
           l ← EdgeTokenFilter.iter_paths r;
           for_each (λ result path,
                       Ok (EdgeTokenFilter.addPath result From to path))
                    l result)
        recorded3 (λ to t, t.1.1 = From ∧ t.1.2 = to ∧ recorded3 p t)
        (EdgeTokenFilter.getTos p (EdgeTokenFilter.TokenInstance From)) s1)
        as (s2 & Hs2 & Hrec2).
      * intros s3 to Hto.
        destruct (getPaths_iter p From to Hto) as (l & Hl & Hin).
        destruct (EdgeTokenFilter.getPaths p From to) as [r| |];
          simpl in Hl; try done.
        simpl. rewrite Hl. simpl.
        destruct (for_each_adds
          (λ result path, Ok (EdgeTokenFilter.addPath result From to path))
          recorded3 (λ path t, t = (From, to, path)) l s3) as (s4 & Hs4 & Hrec4).
        { intros s5 path _. eexists. split; [done|].
          intros [[a b] q]. unfold recorded3. simpl. rewrite recorded_addPath.
          split; (intros [?|?]; [by left | right]); naive_solver. }
        exists s4. split; [done|]. intros [[a b] q]. rewrite Hrec4.
        unfold recorded3. simpl. split; (intros [?|H]; [by left | right]).
        -- destruct H as (path & Hp & [= -> -> ->]). by apply Hin in Hp.
        -- destruct H as (-> & -> & Hq). exists q. by rewrite Hin.
      * exists s2. split; [done|]. intros [[a b] q]. rewrite Hrec2.
        unfold recorded3. simpl. split; (intros [?|H]; [by left | right]).
        -- naive_solver.
        -- destruct H as (-> & Hq). exists b. split; [|done].
           apply getTos_spec. destruct Hq as (ends & paths & ? & ? & ?).
           by exists ends, paths.
    + exists s'. split; [done|]. intros [[a b] q]. rewrite Hrec'.
      unfold recorded3. simpl. split; (intros [?|H]; [by left | right]).
      * naive_solver.
      * exists a. split; [|done]. apply keys_spec.
        destruct H as (ends & paths & -> & _). done.
  - exists result. split; [done|]. intros a b q.
    specialize (Hrec (a, b, q)). unfold recorded3 in Hrec. simpl in Hrec.
    rewrite Hrec. split.
    + intros [H|?]; [by apply recorded_empty in H | done].
    + by right.
Qed.

(** [calculatePaths] returns, and returns the one-edge paths only: each
    edge of the input between its two ends, in both directions. *)
Lemma calculatePaths_direct fuel edges :
  ∃ idx, calculatePaths (S fuel) edges = Ok idx ∧
    ∀ a b q, recorded idx a b q ↔
             ∃ e, e ∈ iter_edges edges ∧ q = {[e]} ∧ joins e a b.
Proof.
  unfold EdgeTokenFilter.calculatePaths. rewrite levels_once.
  destruct (gather_spec
              ([EdgeTokenFilter.direct (iter_edges edges)] ++ [∅]))
    as (idx & Hidx & Hrec).
  exists idx. split; [done|]. intros a b q.
  rewrite Hrec, <- recorded_direct. split.
  - intros (p & Hp & Hq). simpl in Hp.
    apply elem_of_cons in Hp as [->|Hp]; [done|].
    apply list_elem_of_singleton in Hp as ->. by apply recorded_empty in Hq.
  - intros Hq. eexists. split; [|done]. by left.
Qed.

(** C9: the index [calculatePaths] returns is symmetric, a path is
    recorded between [a] and [b] exactly when it is recorded between [b]
    and [a]. *)
Theorem calculatePaths_symmetric (fuel : nat) (edges : collection) :
  ∃ idx, calculatePaths (S fuel) edges = Ok idx ∧
    ∀ a b q, recorded idx a b q ↔ recorded idx b a q.
Proof.
  destruct (calculatePaths_direct fuel edges) as (idx & Hidx & Hrec).
  exists idx. split; [done|]. intros a b q. rewrite !Hrec.
  split; intros (e & He & Hq & Hj); exists e; (split; [done|]);
    (split; [done|]); destruct Hj as [[-> ->]|[-> ->]];
    first [by right | by left].
Qed.

(** C1, on the chain A-B, B-C of one type: the index holds the two
    one-edge paths, and no path at all between A and C. *)
Theorem calculatePaths_chain_not_composed (fuel : nat) :
  ∃ idx, calculatePaths (S fuel) (AsList [edgeAB; edgeBC]) = Ok idx ∧
    type edgeAB = type edgeBC ∧
    recorded idx tokA tokB {[edgeAB]} ∧
    recorded idx tokB tokC {[edgeBC]} ∧
    ∀ q, ¬ recorded idx tokA tokC q.
Proof.
  destruct (calculatePaths_direct fuel (AsList [edgeAB; edgeBC]))
    as (idx & Hidx & Hrec).
  exists idx. split; [done|]. split; [reflexivity|].
  split; [|split].
  - apply Hrec. exists edgeAB. split; [apply list_elem_of_here|].
    split; [reflexivity|]. left. split; reflexivity.
  - apply Hrec. exists edgeBC.
    split; [apply list_elem_of_further, list_elem_of_here|].
    split; [reflexivity|]. left. split; reflexivity.
  - intros q (e & He & _ & Hj)%Hrec.
    apply elem_of_cons in He as [->|He];
      [|apply list_elem_of_singleton in He as ->];
      destruct Hj as [[H1 H2]|[H1 H2]];
      first [ apply (f_equal index) in H1; vm_compute in H1; discriminate
            | apply (f_equal index) in H2; vm_compute in H2; discriminate ].
Qed.

(** *** filterEdges on paths *)

Lemma onPaths_spec self paths :
  ∃ result, EdgeTokenFilter.onPaths self paths = Ok result ∧
    ∀ e, e ∈ result ↔
         ∃ a b q, EdgeTokenFilter.qualifies self a = true ∧
                  EdgeTokenFilter.qualifies self b = true ∧
                  recorded paths a b q ∧ e ∈ q.
Proof.
  unfold EdgeTokenFilter.onPaths.
  destruct (for_each_adds
    (λ result From,
       if EdgeTokenFilter.qualifies self From then
         for_each (λ result to,
           if EdgeTokenFilter.qualifies self to then
             r ← EdgeTokenFilter.getPaths paths From to;
             l ← EdgeTokenFilter.iter_paths r;
             for_each (λ result path, Ok (result ∪ path)) l result
           else Ok result)
           (EdgeTokenFilter.getTos paths (EdgeTokenFilter.TokenInstance From))
           result
       else Ok result)
    (λ (s : gset Edge) e, e ∈ s)
    (λ a e, EdgeTokenFilter.qualifies self a = true ∧
            ∃ b q, EdgeTokenFilter.qualifies self b = true ∧
                   recorded paths a b q ∧ e ∈ q)
    (EdgeTokenFilter.keys paths) ∅) as (result & Hres & Hin).
  - intros s a _. destruct (EdgeTokenFilter.qualifies self a) eqn:Hqa.
    2:{ exists s. split; [done|]. naive_solver. }
    destruct (for_each_adds
      (λ result to,
         if EdgeTokenFilter.qualifies self to then
           r ← EdgeTokenFilter.getPaths paths a to;
           l ← EdgeTokenFilter.iter_paths r;
           for_each (λ result path, Ok (result ∪ path)) l result
         else Ok result)
      (λ (s : gset Edge) e, e ∈ s)
      (λ b e, EdgeTokenFilter.qualifies self b = true ∧
              ∃ q, recorded paths a b q ∧ e ∈ q)
      (EdgeTokenFilter.getTos paths (EdgeTokenFilter.TokenInstance a)) s)
      as (s1 & Hs1 & Hin1).
    + intros s2 b Hb. destruct (EdgeTokenFilter.qualifies self b) eqn:Hqb.
      2:{ exists s2. split; [done|]. naive_solver. }
      destruct (getPaths_iter paths a b Hb) as (l & Hl & Hq).
      destruct (EdgeTokenFilter.getPaths paths a b) as [r| |];
        simpl in Hl; try done.
      simpl. rewrite Hl. simpl.
      destruct (for_each_adds
        (λ (result : gset Edge) (path : gset Edge), Ok (result ∪ path))
        (λ (s : gset Edge) e, e ∈ s) (λ (path : gset Edge) e, e ∈ path)
        l s2) as (s3 & Hs3 & Hin3).
      { intros s4 path _. eexists. split; [done|]. set_solver. }
      exists s3. split; [done|]. intros e. rewrite Hin3.
      split; (intros [?|H]; [by left | right]).
      * destruct H as (q & Hql & He). split; [done|]. exists q.
        by rewrite <- Hq.
      * destruct H as (_ & q & Hqr & He). exists q. by rewrite Hq.
    + exists s1. split; [done|]. intros e. rewrite Hin1.
      split; (intros [?|H]; [by left | right]).
      * destruct H as (b & _ & ? & q & ? & ?). split; [done|]. by exists b, q.
      * destruct H as (_ & b & q & ? & Hr & ?). exists b. split.
        -- apply getTos_spec. destruct Hr as (ends & ps & ? & ? & ?).
           by exists ends, ps.
        -- split; [done|]. by exists q.
  - exists result. split; [done|]. intros e. rewrite Hin. split.
    + intros [H|(a & _ & ? & b & q & ? & ? & ?)];
        [by apply not_elem_of_empty in H|]. by exists a, b, q.
    + intros (a & b & q & ? & ? & Hr & ?). right. exists a. split.
      * apply keys_spec. destruct Hr as (ends & ps & -> & _). done.
      * split; [done|]. by exists b, q.
Qed.

(** With paths on, the filter keeps the edges both ends of which
    qualify. *)
Lemma filterEdges_onPaths fuel self original :
  EdgeTokenFilter._allowedProperties self ≠ ∅ →
  EdgeTokenFilter._usePath self = true →
  ∃ result, filterEdges (S fuel) self original = Ok (AsSet result) ∧
    ∀ e, e ∈ result ↔
         e ∈ iter_edges original ∧
         EdgeTokenFilter.qualifies self (From e) = true ∧
         EdgeTokenFilter.qualifies self (To e) = true.
Proof.
  intros Hne Hpath. unfold EdgeTokenFilter.filterEdges.
  rewrite bool_decide_eq_false_2 by (by rewrite size_zero_iff).
  rewrite Hpath.
  destruct (calculatePaths_direct fuel original) as (idx & -> & Hrec).
  simpl. destruct (onPaths_spec self idx) as (result & -> & Hin). simpl.
  exists result. split; [done|]. intros e. rewrite Hin. split.
  - intros (a & b & q & Ha & Hb & (e' & He' & -> & Hj)%Hrec & He).
    apply elem_of_singleton in He as ->.
    destruct Hj as [[-> ->]|[-> ->]]; done.
  - intros (He & Hf & Ht). exists (From e), (To e), {[e]}.
    split; [done|]. split; [done|]. split; [|by apply elem_of_singleton].
    apply Hrec. exists e. split; [done|]. split; [done|]. by left.
Qed.

(** Where no edge runs from a token to itself, one qualifying token
    alone keeps nothing. *)
Lemma filterEdges_onPaths_one_anchor fuel self original :
  EdgeTokenFilter._allowedProperties self ≠ ∅ →
  EdgeTokenFilter._usePath self = true →
  (∀ e, e ∈ iter_edges original → From e ≠ To e) →
  (∀ a b, EdgeTokenFilter.qualifies self a = true →
          EdgeTokenFilter.qualifies self b = true → a = b) →
  filterEdges (S fuel) self original = Ok (AsSet ∅).
Proof.
  intros Hne Hpath Hloop Hone.
  destruct (filterEdges_onPaths fuel self original Hne Hpath)
    as (result & -> & Hin).
  do 2 f_equal. apply set_eq. intros e. rewrite Hin. split.
  - intros (He & Hf & Ht). destruct (Hloop e He). by apply Hone.
  - by intros ?%not_elem_of_empty.
Qed.

(** C5, on a span over one token: with paths on and that token the only
    one at all, the edge is kept. *)
Theorem filterEdges_onPaths_keeps_loop (fuel : nat) :
  From edgeNP = tokDog ∧ To edgeNP = tokDog ∧
  EdgeTokenFilter._usePath onlyDogs = true ∧
  EdgeTokenFilter._allowedProperties onlyDogs = {["dog"]} ∧
  filterEdges (S fuel) onlyDogs (AsList [edgeNP]) = Ok (AsSet {[edgeNP]}).
Proof.
  split; [reflexivity|]. split; [reflexivity|]. split; [reflexivity|].
  split; [reflexivity|].
  destruct (filterEdges_onPaths fuel onlyDogs (AsList [edgeNP]))
    as (result & -> & Hin).
  { unfold onlyDogs. cbn [EdgeTokenFilter._allowedProperties].
    apply non_empty_singleton_L. }
  { reflexivity. }
  do 2 f_equal. apply set_eq. intros e.
  rewrite Hin, elem_of_singleton. split.
  - intros (He & _). by apply list_elem_of_singleton in He.
  - intros ->. split; [apply list_elem_of_here|].
    split; vm_compute; reflexivity.
Qed.

(** Without paths the filter keeps the edges an end of which qualifies,
    in order. *)
Lemma filterEdges_onEnds fuel self original :
  EdgeTokenFilter._allowedProperties self ≠ ∅ →
  EdgeTokenFilter._usePath self = false →
  filterEdges fuel self original =
  Ok (AsList (List.filter
                (λ e, EdgeTokenFilter.qualifies self (From e)
                      || EdgeTokenFilter.qualifies self (To e))
                (iter_edges original))).
Proof.
  intros Hne Hpath. unfold EdgeTokenFilter.filterEdges.
  rewrite bool_decide_eq_false_2 by (by rewrite size_zero_iff).
  rewrite Hpath. unfold EdgeTokenFilter.onEnds.
  by rewrite fold_left_append_filter.
Qed.

(** C8: with a non-empty allowed set and [usePath] off, the property
    filter keeps exactly the edges with a qualifying end, where a token
    qualifies when a property value contains (without [wholeWords]) or
    equals (with [wholeWords]) an allowed string. *)
Theorem property_filterEdges_exact (fuel : nat) (self : EdgeTokenFilter.t)
    (original : collection) :
  EdgeTokenFilter._allowedProperties self ≠ ∅ →
  EdgeTokenFilter._usePath self = false →
  ∃ keep : Edge → bool,
    (∀ e, keep e = true ↔
          token_qualifies (EdgeTokenFilter._allowedProperties self)
                          (EdgeTokenFilter._wholeWords self) (From e)
          ∨ token_qualifies (EdgeTokenFilter._allowedProperties self)
                            (EdgeTokenFilter._wholeWords self) (To e)) ∧
    filterEdges fuel self original =
    Ok (AsList (List.filter keep (iter_edges original))).
Proof.
  intros Hne Hpath. eexists. split; [|by apply filterEdges_onEnds].
  intros e. unfold EdgeTokenFilter.qualifies.
  by rewrite orb_true_iff, !propertiesContain_spec.
Qed.

(** With an empty allowed set the property filter returns its input,
    whatever the flags. *)
Lemma property_filterEdges_empty fuel usePath collaps wholeWords original :
  filterEdges fuel (EdgeTokenFilter.mk usePath collaps wholeWords ∅) original
  = Ok original.
Proof.
  unfold EdgeTokenFilter.filterEdges. simpl.
  by rewrite bool_decide_eq_true_2 by (by apply size_zero_iff).
Qed.

(** *** filter *)

(** [filterEdges] returns, and returns edges of its input. *)
Lemma filterEdges_total fuel self original :
  ∃ kept, filterEdges (S fuel) self original = Ok kept ∧
          ∀ e, e ∈ iter_edges kept → e ∈ iter_edges original.
Proof.
  destruct (decide (EdgeTokenFilter._allowedProperties self = ∅)) as [He|Hne].
  - exists original. split; [|done]. unfold EdgeTokenFilter.filterEdges.
    by rewrite bool_decide_eq_true_2 by (by apply size_zero_iff).
  - destruct (EdgeTokenFilter._usePath self) eqn:Hpath.
    + destruct (filterEdges_onPaths fuel self original Hne Hpath)
        as (result & Hres & Hin).
      exists (AsSet result). split; [done|]. intros e He. simpl in He.
      apply elem_of_elements, Hin in He. tauto.
    + eexists. split; [by apply filterEdges_onEnds|].
      intros e He. simpl in He.
      apply list_elem_of_In, filter_In in He as [He _].
      by apply list_elem_of_In.
Qed.

(** The collapse up to the split points: the new tokens are the surviving
    tokens by increasing index, renumbered from 0, and the new edges are the
    kept edges between the new tokens. *)
Lemma collapse_steps fuel self original kept :
  well_formed original →
  EdgeTokenFilter._collaps self = true →
  filterEdges (S fuel) self (getEdges original) = Ok kept →
  ∃ survivors new2old updatedEdges,
    filter (S fuel) self original
    = (splitPoints ← EdgeTokenFilter.resplit (length survivors)
                       (imap new_token survivors) new2old
                       (splitPoints original);
       Ok (mkNLPInstance (imap new_token survivors) (AsSet updatedEdges)
                         (instanceRenderType original) splitPoints)) ∧
    (∀ tok, tok ∈ survivors ↔ survives original (iter_edges kept) tok) ∧
    increasing survivors ∧
    (∀ (k : nat) tok, survivors !! k = Some tok →
       ∃ newToken, imap new_token survivors !! k = Some newToken ∧
                   new2old !! newToken = Some tok) ∧
    (∀ e', e' ∈ updatedEdges ↔
           ∃ e, e ∈ iter_edges kept ∧ rewired survivors e e') ∧
    (iter_edges kept = [] ↔ survivors = []).
Proof.
  intros Hwf Hcol Hkept.
  destruct (filterEdges_total fuel self (getEdges original))
    as (kept' & Hkept' & Hsub).
  rewrite Hkept in Hkept'. injection Hkept' as <-.
  destruct (touched_spec original (iter_edges kept) Hwf Hsub)
    as (toks & Htoks & Hsurv).
  assert (∀ tok, tok ∈ toks → tok ∈ tokens original) as Hin.
  { intros tok Htok%Hsurv. by destruct Htok. }
  destruct (sorted_spec original toks Hwf Hin) as (Hmem & Hnd & Hinc & Hlen).
  destruct (renumber_spec original (EdgeTokenFilter.sorted toks) Hwf)
    as (old2new & new2old & Hren & Hmaps); [by intros tok ?%Hmem%Hin|done|].
  assert (∀ e, e ∈ iter_edges kept →
               From e ∈ EdgeTokenFilter.sorted toks ∧
               To e ∈ EdgeTokenFilter.sorted toks) as Hends.
  { intros e He. destruct (wf_ends original Hwf e (Hsub e He)) as [Hf Ht].
    rewrite !Hmem, !Hsurv. unfold survives.
    split; (split; [done|]); exists e; (split; [done|]);
      destruct (renderType e) eqn:Hr; auto;
      pose proof (wf_span original Hwf e (Hsub e He) Hr); lia. }
  destruct (rewire_spec (EdgeTokenFilter.sorted toks) old2new (iter_edges kept))
    as (updatedEdges & Hrew & Hedges);
    [by intros k tok [? _]%Hmaps|done|].
  exists (EdgeTokenFilter.sorted toks), new2old, updatedEdges.
  split; [|split; [|split; [|split; [|split]]]].
  - unfold EdgeTokenFilter.filter. rewrite Hkept. simpl. rewrite Hcol. simpl.
    rewrite Htoks. simpl. rewrite Hren. simpl. rewrite Hrew. simpl.
    by rewrite Hlen.
  - intros tok. by rewrite Hmem.
  - done.
  - intros k tok Hk. exists (new_token k tok). split.
    + by rewrite list_lookup_imap, Hk.
    + by apply Hmaps.
  - done.
  - split.
    + intros Hnil. destruct (EdgeTokenFilter.sorted toks) as [|tok ?] eqn:Hs;
        [done|].
      assert (tok ∈ toks) as (_ & e & He & _)%Hsurv.
      { apply Hmem. by left. }
      rewrite Hnil in He. by apply elem_of_nil in He.
    + intros Hnil. destruct (iter_edges kept) as [|e ?] eqn:Hk; [done|].
      destruct (Hends e) as [Hf _]; [by left|].
      rewrite Hnil in Hf. by apply elem_of_nil in Hf.
Qed.

(** Where an edge is kept, [filter] returns the collapsed instance. *)
Lemma collapse_some_kept fuel self original kept :
  well_formed original →
  EdgeTokenFilter._collaps self = true →
  filterEdges (S fuel) self (getEdges original) = Ok kept →
  iter_edges kept ≠ [] →
  ∃ survivors updatedEdges (ks : list nat),
    filter (S fuel) self original
    = Ok (mkNLPInstance (imap new_token survivors) (AsSet updatedEdges)
                        (instanceRenderType original) (Z.of_nat <$> ks)) ∧
    (∀ tok, tok ∈ survivors ↔ survives original (iter_edges kept) tok) ∧
    increasing survivors ∧
    (∀ e', e' ∈ updatedEdges ↔
           ∃ e, e ∈ iter_edges kept ∧ rewired survivors e e') ∧
    Forall2 (remapped (index <$> survivors)) (splitPoints original) ks.
Proof.
  intros Hwf Hcol Hkept Hne.
  destruct (collapse_steps fuel self original kept Hwf Hcol Hkept)
    as (survivors & new2old & updatedEdges & Hrun & Hsurv & Hinc & Hback
        & Hedges & Hnil).
  destruct (resplit_spec survivors (imap new_token survivors) new2old Hback
              (splitPoints original)) as (ks & Hks & Hremap).
  { by apply wf_split_sorted. }
  { destruct survivors; [by destruct Hne; apply Hnil | simpl; lia]. }
  exists survivors, updatedEdges, ks. rewrite Hrun, Hks. done.
Qed.

(** Where the instance has no split point, [filter] returns the collapsed
    instance, be an edge kept or not. *)
Lemma collapse_no_split_points fuel self original kept :
  well_formed original →
  EdgeTokenFilter._collaps self = true →
  filterEdges (S fuel) self (getEdges original) = Ok kept →
  splitPoints original = [] →
  ∃ survivors updatedEdges,
    filter (S fuel) self original
    = Ok (mkNLPInstance (imap new_token survivors) (AsSet updatedEdges)
                        (instanceRenderType original) []) ∧
    (∀ tok, tok ∈ survivors ↔ survives original (iter_edges kept) tok) ∧
    increasing survivors ∧
    (∀ e', e' ∈ updatedEdges ↔
           ∃ e, e ∈ iter_edges kept ∧ rewired survivors e e').
Proof.
  intros Hwf Hcol Hkept Hsp.
  destruct (collapse_steps fuel self original kept Hwf Hcol Hkept)
    as (survivors & new2old & updatedEdges & Hrun & Hsurv & Hinc & Hback
        & Hedges & Hnil).
  exists survivors, updatedEdges. rewrite Hrun, Hsp. done.
Qed.

(** Where no edge is kept and the instance has a split point, [filter]
    raises [IndexError]. *)
Lemma collapse_nothing_kept fuel self original kept :
  well_formed original →
  EdgeTokenFilter._collaps self = true →
  filterEdges (S fuel) self (getEdges original) = Ok kept →
  iter_edges kept = [] →
  splitPoints original ≠ [] →
  filter (S fuel) self original = Raise IndexError.
Proof.
  intros Hwf Hcol Hkept Hk Hsp.
  destruct (collapse_steps fuel self original kept Hwf Hcol Hkept)
    as (survivors & new2old & updatedEdges & Hrun & Hsurv & Hinc & Hback
        & Hedges & Hnil).
  rewrite Hrun. apply Hnil in Hk as ->.
  destruct (splitPoints original) as [|sp sps]; [done|]. reflexivity.
Qed.

(** On a well-formed instance [filter] returns, unless it collapses, no
    edge is kept and there is a split point. *)
Lemma filter_returns_iff fuel self original :
  well_formed original →
  ∃ kept, filterEdges (S fuel) self (getEdges original) = Ok kept ∧
    ((∃ result, filter (S fuel) self original = Ok result) ↔
     ¬ (EdgeTokenFilter._collaps self = true ∧ iter_edges kept = [] ∧
        splitPoints original ≠ [])).
Proof.
  intros Hwf.
  destruct (filterEdges_total fuel self (getEdges original))
    as (kept & Hkept & _).
  exists kept. split; [done|].
  destruct (EdgeTokenFilter._collaps self) eqn:Hcol.
  - destruct (iter_edges kept) as [|e es] eqn:Hk.
    + destruct (splitPoints original) as [|sp sps] eqn:Hsp.
      * destruct (collapse_no_split_points fuel self original kept
                    Hwf Hcol Hkept Hsp) as (? & ? & -> & _).
        split; [by intros _ (_ & _ & ?) | by eexists].
      * rewrite (collapse_nothing_kept fuel self original kept)
          by (done || by rewrite Hsp).
        split; [by intros [? ?] | intros []; done].
    + destruct (collapse_some_kept fuel self original kept Hwf Hcol Hkept)
        as (? & ? & ? & -> & _); [by rewrite Hk|].
      split; [by intros _ (_ & ? & _) | by eexists].
  - split; [by intros _ (? & _)|]. intros _.
    unfold EdgeTokenFilter.filter. rewrite Hkept. simpl. rewrite Hcol. simpl.
    by eexists.
Qed.

(** X28: when collapsing keeps an edge, every original split point gets
    the new index of the first surviving token at or after it, or the last
    new index where no surviving token is, and there are as many new split
    points as original ones. *)
Theorem collapse_remaps_split_points (fuel : nat) (self : EdgeTokenFilter.t)
    (original : NLPInstance) :
  well_formed original →
  EdgeTokenFilter._collaps self = true →
  ∃ kept, filterEdges (S fuel) self (getEdges original) = Ok kept ∧
    (iter_edges kept ≠ [] →
     ∃ result survivors (ks : list nat),
       filter (S fuel) self original = Ok result ∧
       (∀ tok, tok ∈ survivors ↔ survives original (iter_edges kept) tok) ∧
       increasing survivors ∧
       tokens result = imap new_token survivors ∧
       splitPoints result = Z.of_nat <$> ks ∧
       length (splitPoints result) = length (splitPoints original) ∧
       Forall2 (remapped (index <$> survivors)) (splitPoints original) ks).
Proof.
  intros Hwf Hcol.
  destruct (filterEdges_total fuel self (getEdges original))
    as (kept & Hkept & _).
  exists kept. split; [done|]. intros Hne.
  destruct (collapse_some_kept fuel self original kept Hwf Hcol Hkept Hne)
    as (survivors & updatedEdges & ks & Hrun & Hsurv & Hinc & _ & Hremap).
  eexists. exists survivors, ks. split; [done|]. simpl.
  split; [done|]. split; [done|]. split; [done|]. split; [done|].
  split; [|done]. rewrite length_fmap. symmetry. by eapply Forall2_length.
Qed.

Lemma well_formed_loneDog : well_formed loneDog.
Proof.
  split.
  - intros [|i] tok; [|by destruct i]. intros [= <-]. reflexivity.
  - intros e He. by apply elem_of_nil in He.
  - intros e He. by apply elem_of_nil in He.
  - intros sp ->%list_elem_of_singleton. cbn [loneDog tokens length]. lia.
  - repeat constructor.
Qed.

Lemma well_formed_theDog : well_formed theDog.
Proof.
  split.
  - intros [|[|i]] tok; [| |by destruct i]; intros [= <-]; reflexivity.
  - intros e ->%list_elem_of_singleton.
    split; [apply list_elem_of_here|].
    apply list_elem_of_further, list_elem_of_here.
  - intros e ->%list_elem_of_singleton. discriminate.
  - intros sp ->%list_elem_of_singleton. cbn [theDog tokens length]. lia.
  - repeat constructor.
Qed.

(** C2, on one token, no edge and a split point: collapsing returns no
    instance. *)
Theorem collapse_lone_token_raises (fuel : nat) :
  well_formed loneDog ∧
  filterEdges (S fuel) collapsing (getEdges loneDog) = Ok (AsList []) ∧
  filter (S fuel) collapsing loneDog = Raise IndexError.
Proof.
  split; [apply well_formed_loneDog|].
  assert (filterEdges (S fuel) collapsing (getEdges loneDog) = Ok (AsList []))
    as Hkept by apply property_filterEdges_empty.
  split; [done|].
  by apply (collapse_nothing_kept fuel collapsing loneDog (AsList []));
    [apply well_formed_loneDog | | | | ].
Qed.

(** C4, on an instance with a split point and a filter that keeps no
    edge: collapsing raises [IndexError]. *)
Theorem collapse_all_filtered_raises (fuel : nat) :
  well_formed theDog ∧
  filterEdges (S fuel) onlyCats (getEdges theDog) = Ok (AsList []) ∧
  filter (S fuel) onlyCats theDog = Raise IndexError.
Proof.
  split; [apply well_formed_theDog|].
  assert (filterEdges (S fuel) onlyCats (getEdges theDog) = Ok (AsList []))
    as Hkept.
  { unfold EdgeTokenFilter.filterEdges. vm_compute. reflexivity. }
  split; [done|].
  by apply (collapse_nothing_kept fuel onlyCats theDog (AsList []));
    [apply well_formed_theDog | | | | ].
Qed.

Lemma well_formed_theDogRuns : well_formed theDogRuns.
Proof.
  split.
  - intros [|[|[|i]]] tok; [| | |by destruct i]; intros [= <-]; reflexivity.
  - intros e He. cbn [theDogRuns edges iter_edges tokens] in *.
    apply elem_of_cons in He as [->|He];
      [|apply list_elem_of_singleton in He as ->];
      split; apply list_elem_of_In; cbn [In From To edgeAB edgeBC]; tauto.
  - intros e He. cbn [theDogRuns edges iter_edges] in He.
    apply elem_of_cons in He as [->|He];
      [|apply list_elem_of_singleton in He as ->]; discriminate.
  - intros sp ->%list_elem_of_singleton. cbn [theDogRuns tokens length]. lia.
  - repeat constructor.
Qed.

(** C3, on a sentence with a split point at its second token and a filter
    that keeps no edge: no token survives, the split point is given no
    new index, and collapsing raises [IndexError] instead of returning an
    instance with one split point. *)
Theorem collapse_split_point_lost (fuel : nat) :
  well_formed theDogRuns ∧
  splitPoints theDogRuns = [1] ∧
  filterEdges (S fuel) onlyBirds (getEdges theDogRuns) = Ok (AsList []) ∧
  filter (S fuel) onlyBirds theDogRuns = Raise IndexError.
Proof.
  split; [apply well_formed_theDogRuns|]. split; [reflexivity|].
  assert (filterEdges (S fuel) onlyBirds (getEdges theDogRuns)
          = Ok (AsList [])) as Hkept.
  { unfold EdgeTokenFilter.filterEdges. vm_compute. reflexivity. }
  split; [done|].
  by apply (collapse_nothing_kept fuel onlyBirds theDogRuns (AsList []));
    [apply well_formed_theDogRuns | | | | ].
Qed.

End property_filter.

(** C6: with an empty allowed set both filters return the edge collection
    they were given, the property filter in every mode. *)
Theorem filterEdges_empty_allowed (original : collection) :
  EdgeLabelFilter.filterEdges (EdgeLabelFilter.mk ∅) original = original ∧
  ∀ getTypePrefix iter_next path_in fuel usePath collaps wholeWords,
    EdgeTokenFilter.filterEdges getTypePrefix iter_next path_in fuel
      (EdgeTokenFilter.mk usePath collaps wholeWords ∅) original
    = Ok original.
Proof.
  split.
  - unfold EdgeLabelFilter.filterEdges. simpl.
    by rewrite bool_decide_eq_true_2 by (by apply size_zero_iff).
  - intros. apply property_filterEdges_empty.
Qed.

(** ** The theorems at concrete inputs *)

Lemma well_formed_theDogRunsFast : well_formed theDogRunsFast.
Proof.
  split.
  - intros [|[|[|[|i]]]] tok; [| | | |by destruct i];
      intros [= <-]; reflexivity.
  - intros e He. cbn [theDogRunsFast edges iter_edges tokens] in *.
    apply elem_of_cons in He as [->|He];
      [|apply elem_of_cons in He as [->|He];
        [|apply list_elem_of_singleton in He as ->]];
      split; apply list_elem_of_In; cbn [In From To edgeAB edgeBC edgeCD];
      tauto.
  - intros e He. cbn [theDogRunsFast edges iter_edges] in He.
    apply elem_of_cons in He as [->|He];
      [|apply elem_of_cons in He as [->|He];
        [|apply list_elem_of_singleton in He as ->]]; discriminate.
  - intros sp ->%list_elem_of_singleton.
    cbn [theDogRunsFast tokens length]. lia.
  - repeat constructor.
Qed.

Lemma collapse_remaps_split_points_witness :
  well_formed theDogRunsFast ∧
  EdgeTokenFilter._collaps onlyFast = true ∧
  ∃ result,
    EdgeTokenFilter.filter type (λ _, Raise AttributeError) (λ _ _, false)
                           1 onlyFast theDogRunsFast = Ok result ∧
    length (splitPoints result) = 1%nat.
Proof.
  split; [apply well_formed_theDogRunsFast|]. split; [reflexivity|].
  destruct (collapse_remaps_split_points type (λ _, Raise AttributeError)
              (λ _ _, false) 0 onlyFast theDogRunsFast
              well_formed_theDogRunsFast eq_refl)
    as (kept & Hkept & Hsome).
  vm_compute in Hkept. injection Hkept as <-.
  destruct Hsome as (result & survivors & ks & Hrun & _ & _ & _ & _ & Hlen & _);
    [discriminate|].
  exists result. split; [exact Hrun | exact Hlen].
Defined.

Lemma label_filterEdges_exact_witness :
  EdgeLabelFilter._allowedLabels (EdgeLabelFilter.init ["nsubj"]) ≠ ∅ ∧
  ∃ keep : Edge → bool,
    (∀ e, keep e = true ↔ label_matches {["nsubj"]} e) ∧
    EdgeLabelFilter.filterEdges (EdgeLabelFilter.init ["nsubj"])
                                (AsList [edgeAB; edgeBC])
    = AsList (List.filter keep [edgeAB; edgeBC]).
Proof.
  assert (EdgeLabelFilter._allowedLabels (EdgeLabelFilter.init ["nsubj"]) ≠ ∅)
    as Hne.
  { cbn [EdgeLabelFilter._allowedLabels EdgeLabelFilter.init list_to_set foldr].
    apply union_positive_l_alt_L, non_empty_singleton_L. }
  split; [exact Hne|].
  destruct (label_filterEdges_exact (EdgeLabelFilter.init ["nsubj"])
              (AsList [edgeAB; edgeBC]) Hne) as (keep & Hkeep & Hrun).
  exists keep. split; [|exact Hrun].
  intros e. rewrite Hkeep.
  cbn [EdgeLabelFilter._allowedLabels EdgeLabelFilter.init list_to_set foldr].
  by rewrite (right_id_L ∅ (∪)).
Defined.

Lemma property_filterEdges_exact_witness :
  EdgeTokenFilter._allowedProperties onlyFast ≠ ∅ ∧
  EdgeTokenFilter._usePath onlyFast = false ∧
  ∃ keep : Edge → bool,
    (∀ e, keep e = true ↔
          token_qualifies {["fast"]} false (From e)
          ∨ token_qualifies {["fast"]} false (To e)) ∧
    EdgeTokenFilter.filterEdges type (λ _, Raise AttributeError) (λ _ _, false)
      1 onlyFast (AsList [edgeAB; edgeBC; edgeCD])
    = Ok (AsList (List.filter keep [edgeAB; edgeBC; edgeCD])).
Proof.
  assert (EdgeTokenFilter._allowedProperties onlyFast ≠ ∅) as Hne.
  { unfold onlyFast. cbn [EdgeTokenFilter._allowedProperties].
    apply non_empty_singleton_L. }
  split; [exact Hne|]. split; [reflexivity|].
  exact (property_filterEdges_exact type (λ _, Raise AttributeError)
           (λ _ _, false) 1 onlyFast (AsList [edgeAB; edgeBC; edgeCD])
           Hne eq_refl).
Defined.

Lemma allows_exact_membership_witness :
  "subj" ∈ EdgeLabelFilter._allowedLabels (EdgeLabelFilter.mk {["subj"]}) ∧
  ("nsubj" ∉ EdgeLabelFilter._allowedLabels
             (EdgeLabelFilter.mk {["subj"]})) ∧
  "nsubj" = "n" +:+ "subj" +:+ EmptyString ∧
  edgeBC ∈ iter_edges (AsList [edgeBC]) ∧
  label edgeBC = "nsubj" ∧
  EdgeLabelFilter.allows (EdgeLabelFilter.mk {["subj"]}) "nsubj" = false ∧
  edgeBC ∈ iter_edges (EdgeLabelFilter.filterEdges
                         (EdgeLabelFilter.mk {["subj"]}) (AsList [edgeBC])).
Proof.
  assert ("subj" ∈ EdgeLabelFilter._allowedLabels
                     (EdgeLabelFilter.mk {["subj"]})) as H1.
  { cbn [EdgeLabelFilter._allowedLabels]. by apply elem_of_singleton. }
  assert ("nsubj" ∉ EdgeLabelFilter._allowedLabels
                      (EdgeLabelFilter.mk {["subj"]})) as H2.
  { cbn [EdgeLabelFilter._allowedLabels]. intros H%elem_of_singleton.
    discriminate H. }
  assert (edgeBC ∈ iter_edges (AsList [edgeBC])) as H4.
  { apply list_elem_of_here. }
  split; [exact H1|]. split; [exact H2|]. split; [reflexivity|].
  split; [exact H4|]. split; [reflexivity|].
  destruct allows_exact_membership
    as (_ & _ & _ & _ & _ & _ & _ & _ & _ & _ & Hkept).
  exact (Hkept (EdgeLabelFilter.mk {["subj"]}) "subj" "nsubj" "n" EmptyString
               (AsList [edgeBC]) edgeBC H1 H2 eq_refl H4 eq_refl).
Defined.

(** * Further properties *)

(** ** EdgeLabelFilter.py *)

(** X1: a label that was just added can be removed, and the allowed set is
    then the old one without the label; removing a label a second time
    raises [KeyError]. *)
Theorem label_remove_after_add_and_twice :
  (∀ self v,
     EdgeLabelFilter.removeAllowedLabel
       (EdgeLabelFilter.addAllowedLabel self v) v
     = Ok (EdgeLabelFilter.mk (EdgeLabelFilter._allowedLabels self ∖ {[v]}))) ∧
  (∀ self self' v,
     EdgeLabelFilter.removeAllowedLabel self v = Ok self' →
     EdgeLabelFilter.removeAllowedLabel self' v = Raise KeyError) ∧
  (∀ self v,
     EdgeLabelFilter.removeAllowedLabel (EdgeLabelFilter.clear self) v
     = Raise KeyError).
Proof.
  split_and!.
  - intros self v. unfold EdgeLabelFilter.removeAllowedLabel. simpl.
    rewrite bool_decide_eq_true_2 by set_solver. do 2 f_equal. set_solver.
  - intros self self' v. unfold EdgeLabelFilter.removeAllowedLabel.
    case_bool_decide; [|done]. intros [= <-]. simpl.
    by rewrite bool_decide_eq_false_2 by set_solver.
  - intros self v. unfold EdgeLabelFilter.removeAllowedLabel. simpl.
    by rewrite bool_decide_eq_false_2 by set_solver.
Qed.

Lemma filter_filter_same {A} (P : A → bool) (l : list A) :
  List.filter P (List.filter P l) = List.filter P l.
Proof.
  induction l as [|x l IH]; simpl; [done|].
  destruct (P x) eqn:Hx; simpl; [by rewrite Hx, IH | done].
Qed.

Lemma filter_all {A} (P : A → bool) (l : list A) :
  (∀ x, P x = true) → List.filter P l = l.
Proof.
  intros HP. induction l as [|x l IH]; simpl; [done|]. by rewrite HP, IH.
Qed.

(** X2: filtering the result of the label filter again changes nothing. *)
Theorem label_filterEdges_idempotent (self : EdgeLabelFilter.t)
    (original : collection) :
  EdgeLabelFilter.filterEdges self
    (EdgeLabelFilter.filterEdges self original)
  = EdgeLabelFilter.filterEdges self original.
Proof.
  destruct (decide (EdgeLabelFilter._allowedLabels self = ∅)) as [He|Hne].
  - unfold EdgeLabelFilter.filterEdges.
    by rewrite !bool_decide_eq_true_2 by (by apply size_zero_iff).
  - rewrite !label_filter_as_filter by done. simpl.
    by rewrite filter_filter_same.
Qed.

Lemma str_contains_empty s : str_contains EmptyString s = true.
Proof. by destruct s. Qed.

(** X3: when the empty string is allowed every edge is kept, for the
    empty string occurs in every label. *)
Theorem label_filterEdges_empty_string (self : EdgeLabelFilter.t)
    (original : collection) :
  EmptyString ∈ EdgeLabelFilter._allowedLabels self →
  EdgeLabelFilter.filterEdges self original = AsList (iter_edges original).
Proof.
  intros Hin. rewrite label_filter_as_filter by set_solver.
  f_equal. apply filter_all. intros e. apply existsb_elements.
  exists EmptyString. split; [done | apply str_contains_empty].
Qed.

Lemma label_keeps_iff allowed c e :
  allowed ≠ ∅ →
  label_keeps allowed c e ↔ e ∈ iter_edges c ∧ label_matches allowed e.
Proof.
  intros Hne. unfold label_keeps.
  rewrite label_filter_as_filter by done. simpl.
  rewrite list_elem_of_In, filter_In, <- list_elem_of_In, existsb_elements.
  unfold label_matches. split; intros (He & Hm); (split; [done|]).
  - destruct Hm as (a & Ha & (p & q & Hpq)%str_contains_spec).
    by exists a, p, q.
  - destruct Hm as (a & p & q & Ha & Hpq). exists a. split; [done|].
    apply str_contains_spec. by exists p, q.
Qed.

(** X4: with two non-empty allowed sets, the filter for their union keeps
    the edges that one of the two filters keeps. *)
Theorem label_filterEdges_union (A B : gset string) (c : collection)
    (e : Edge) :
  A ≠ ∅ → B ≠ ∅ →
  label_keeps (A ∪ B) c e ↔ label_keeps A c e ∨ label_keeps B c e.
Proof.
  intros HA HB. rewrite !label_keeps_iff by set_solver.
  unfold label_matches. split.
  - intros (He & a & p & q & [Ha|Ha]%elem_of_union & Hpq);
      [left | right]; (split; [done|]); by exists a, p, q.
  - intros [(He & a & p & q & Ha & Hpq)|(He & a & p & q & Ha & Hpq)];
      (split; [done|]); exists a, p, q; set_solver.
Qed.

(** X5: allowing one more label can only add edges to the result when
    some label was allowed before, and can only take edges away when none
    was. *)
Theorem label_add_grows_unless_first (self : EdgeLabelFilter.t) (v : string)
    (c : collection) (e : Edge) :
  (EdgeLabelFilter._allowedLabels self ≠ ∅ →
   e ∈ iter_edges (EdgeLabelFilter.filterEdges self c) →
   e ∈ iter_edges (EdgeLabelFilter.filterEdges
                     (EdgeLabelFilter.addAllowedLabel self v) c)) ∧
  (EdgeLabelFilter._allowedLabels self = ∅ →
   e ∈ iter_edges (EdgeLabelFilter.filterEdges
                     (EdgeLabelFilter.addAllowedLabel self v) c) →
   e ∈ iter_edges (EdgeLabelFilter.filterEdges self c)).
Proof.
  destruct self as [allowed]. split; simpl.
  - intros Hne He. apply (label_keeps_iff allowed) in He as [He Hm]; [|done].
    apply label_keeps_iff; [set_solver|]. split; [done|].
    destruct Hm as (a & p & q & Ha & Hpq). exists a, p, q. set_solver.
  - intros -> He. apply label_keeps_iff in He as [He _]; [|set_solver].
    unfold EdgeLabelFilter.filterEdges. simpl.
    by rewrite bool_decide_eq_true_2 by (by apply size_zero_iff).
Qed.

(** ** EdgeTokenFilter.py: the allowed values *)

(** X6: a property value that was just added can be removed, which leaves
    the old allowed set without the value and the flags [usePath],
    [collaps] and [wholeWords] as they were; removing a value a second
    time, or removing anything after [clear], raises [KeyError]. *)
Theorem property_remove_after_add_and_twice :
  (∀ self v,
     EdgeTokenFilter.removeAllowedProperty
       (EdgeTokenFilter.addAllowedProperty self v) v
     = Ok (EdgeTokenFilter.mk (EdgeTokenFilter._usePath self)
             (EdgeTokenFilter._collaps self) (EdgeTokenFilter._wholeWords self)
             (EdgeTokenFilter._allowedProperties self ∖ {[v]}))) ∧
  (∀ self self' v,
     EdgeTokenFilter.removeAllowedProperty self v = Ok self' →
     EdgeTokenFilter.removeAllowedProperty self' v = Raise KeyError) ∧
  (∀ self v,
     EdgeTokenFilter.removeAllowedProperty (EdgeTokenFilter.clear self) v
     = Raise KeyError).
Proof.
  split_and!.
  - intros self v. unfold EdgeTokenFilter.removeAllowedProperty. simpl.
    rewrite bool_decide_eq_true_2 by set_solver. do 2 f_equal. set_solver.
  - intros self self' v. unfold EdgeTokenFilter.removeAllowedProperty.
    case_bool_decide; [|done]. intros [= <-]. simpl.
    by rewrite bool_decide_eq_false_2 by set_solver.
  - intros self v. unfold EdgeTokenFilter.removeAllowedProperty. simpl.
    by rewrite bool_decide_eq_false_2 by set_solver.
Qed.

(** ** EdgeTokenFilter.py: class Paths *)

(** X7: after [addPath(From, to, path)] the set [getPaths(From, to)]
    returns holds [path] and what it held before, and the paths between
    every other pair of tokens are as before. *)
Theorem addPath_then_getPaths
    (idx : gmap Token (gmap Token (gset (gset Edge)))) (From to : Token)
    (path : gset Edge) :
  ∃ paths,
    EdgeTokenFilter.getPaths (EdgeTokenFilter.addPath idx From to path) From to
    = Ok (Some paths) ∧
    (∀ q, q ∈ paths ↔ q = path ∨ recorded idx From to q) ∧
    ∀ a b q, (a, b) ≠ (From, to) →
      recorded (EdgeTokenFilter.addPath idx From to path) a b q ↔
      recorded idx a b q.
Proof.
  assert (recorded (EdgeTokenFilter.addPath idx From to path) From to path)
    as Hrec.
  { apply recorded_addPath. by right. }
  apply recorded_getPaths in Hrec as (paths & Hget & Hin).
  exists paths. split; [done|]. split.
  - intros q. split.
    + intros Hq.
      assert (recorded (EdgeTokenFilter.addPath idx From to path) From to q)
        as [?|(_ & _ & ->)]%recorded_addPath; [|by right|by left].
      apply recorded_getPaths. by exists paths.
    + intros Hq.
      assert (recorded (EdgeTokenFilter.addPath idx From to path) From to q)
        as (paths' & Hget' & Hq')%recorded_getPaths.
      { apply recorded_addPath. destruct Hq as [->|?]; [by right | by left]. }
      congruence.
  - intros a b q Hne. rewrite recorded_addPath. split; [|by left].
    intros [?|(-> & -> & _)]; [done | by destruct Hne].
Qed.

(** X8: [getPaths] returns a set exactly for the pairs that [keys] and
    [getTos] list; for a start that is a key and an end that [getTos] does
    not list it raises [KeyError], and for a start that is no key it
    returns [None], which cannot be iterated over. *)
Theorem getPaths_outcomes
    (idx : gmap Token (gmap Token (gset (gset Edge)))) (From to : Token) :
  (to ∈ EdgeTokenFilter.getTos idx (EdgeTokenFilter.TokenInstance From) ↔
   ∃ paths, EdgeTokenFilter.getPaths idx From to = Ok (Some paths)) ∧
  (From ∈ EdgeTokenFilter.keys idx →
   to ∉ EdgeTokenFilter.getTos idx (EdgeTokenFilter.TokenInstance From) →
   EdgeTokenFilter.getPaths idx From to = Raise KeyError) ∧
  (From ∉ EdgeTokenFilter.keys idx →
   EdgeTokenFilter.getTos idx (EdgeTokenFilter.TokenInstance From) = [] ∧
   EdgeTokenFilter.getPaths idx From to = Ok None ∧
   (r ← EdgeTokenFilter.getPaths idx From to; EdgeTokenFilter.iter_paths r)
   = Raise TypeError).
Proof.
  unfold EdgeTokenFilter.keys, EdgeTokenFilter.getTos, EdgeTokenFilter.getPaths,
    py_lookup. simpl.
  rewrite elem_of_elements, elem_of_dom.
  destruct (idx !! From) as [ends|] eqn:Hf; simpl.
  - rewrite elem_of_elements, elem_of_dom.
    destruct (ends !! to) as [paths|] eqn:Ht; simpl.
    + split; [|split].
      * split; [by eexists | by intros _].
      * intros _ []. done.
      * intros []. done.
    + split; [|split].
      * split; [by intros [? ?] | by intros [? ?]].
      * done.
      * intros []. done.
  - split; [|split].
    + split; [by intros ?%elem_of_nil | by intros [? ?]].
    + by intros [? ?].
    + done.
Qed.

(** X9: [addPath] makes [From] a key and [to] one of its ends, keeps every
    key and end there was, and [len] grows by one exactly when [From] was
    no key. *)
Theorem addPath_keys_and_len
    (idx : gmap Token (gmap Token (gset (gset Edge)))) (From to : Token)
    (path : gset Edge) :
  (∀ a, a ∈ EdgeTokenFilter.keys (EdgeTokenFilter.addPath idx From to path) ↔
        a = From ∨ a ∈ EdgeTokenFilter.keys idx) ∧
  (∀ b, b ∈ EdgeTokenFilter.getTos (EdgeTokenFilter.addPath idx From to path)
              (EdgeTokenFilter.TokenInstance From) ↔
        b = to ∨ b ∈ EdgeTokenFilter.getTos idx
                       (EdgeTokenFilter.TokenInstance From)) ∧
  EdgeTokenFilter.len (EdgeTokenFilter.addPath idx From to path)
  = if bool_decide (From ∈ EdgeTokenFilter.keys idx)
    then EdgeTokenFilter.len idx else S (EdgeTokenFilter.len idx).
Proof.
  unfold EdgeTokenFilter.keys, EdgeTokenFilter.getTos, EdgeTokenFilter.len,
    EdgeTokenFilter.addPath. simpl.
  split; [|split].
  - intros a. rewrite !elem_of_elements, dom_insert_L. set_solver.
  - intros b. rewrite lookup_insert_eq, elem_of_elements, dom_insert_L.
    destruct (idx !! From) as [ends|]; simpl.
    + rewrite elem_of_elements. set_solver.
    + rewrite dom_empty_L. set_solver.
  - case_bool_decide as Hk; rewrite elem_of_elements, elem_of_dom in Hk.
    + destruct Hk as [ends Hends]. by eapply map_size_insert_Some.
    + apply map_size_insert_None. by apply eq_None_not_Some.
Qed.

(** ** EdgeTokenFilter.py: Path.__hash__ *)

Lemma fold_left_add_acc (h : Edge → Z) (l : list Edge) (acc : Z) :
  fold_left (λ value e, value + h e) l acc
  = acc + fold_left (λ value e, value + h e) l 0.
Proof.
  revert acc. induction l as [|e l IH]; intros acc; simpl; [lia|].
  rewrite (IH (acc + h e)), (IH (0 + h e)). lia.
Qed.

Lemma fold_left_add_perm (h : Edge → Z) (l l' : list Edge) :
  l ≡ₚ l' →
  fold_left (λ value e, value + h e) l 0
  = fold_left (λ value e, value + h e) l' 0.
Proof.
  induction 1 as [|x l l' _ IH|x y l|l l' l'' _ IH1 _ IH2]; simpl.
  - done.
  - by rewrite (fold_left_add_acc h l), (fold_left_add_acc h l'), IH.
  - rewrite (fold_left_add_acc h l (0 + h y + h x)).
    rewrite (fold_left_add_acc h l (0 + h x + h y)). lia.
  - congruence.
Qed.

(** X10: the hash of a path does not depend on the order in which the set
    hands out its edges; the hash of a one-edge path is the hash of the
    edge, and the hash of two paths without a common edge, put together, is
    the sum of their hashes. *)
Theorem Path_hash_sum (hash : Edge → Z) :
  (∀ (p : gset Edge) l, l ≡ₚ elements p →
     fold_left (λ value e, value + hash e) l 0 = Path_hash hash p) ∧
  (∀ e, Path_hash hash {[e]} = hash e) ∧
  (∀ p q : gset Edge, p ## q →
     Path_hash hash (p ∪ q) = Path_hash hash p + Path_hash hash q).
Proof.
  unfold Path_hash. split; [|split].
  - intros p l Hl. by apply fold_left_add_perm.
  - intros e. by rewrite elements_singleton.
  - intros p q Hpq.
    rewrite (fold_left_add_perm hash _ _ (elements_disj_union p q Hpq)).
    rewrite fold_left_app. apply fold_left_add_acc.
Qed.

(** ** EdgeTokenFilter.py: calculatePaths *)

Lemma for_each_preserves {S X} (I : S → Prop) (body : S → X → outcome S)
    (l : list X) (s s' : S) :
  (∀ s x s', I s → body s x = Ok s' → I s') →
  I s → for_each body l s = Ok s' → I s'.
Proof.
  intros Hbody. revert s. induction l as [|x l IH]; intros s Hs; simpl.
  - by intros [= <-].
  - destruct (body s x) as [s1| |] eqn:Hb; simpl; [|done|done].
    apply IH. by eapply Hbody.
Qed.

(** A loop whose body leaves the state alone on the elements of the
    list returns the state. *)
Lemma for_each_skip_on {S X} (body : S → X → outcome S) (l : list X) (s : S) :
  (∀ s x, x ∈ l → body s x = Ok s) → for_each body l s = Ok s.
Proof.
  induction l as [|x l IH]; intros Hbody; simpl; [done|].
  rewrite Hbody by by left. simpl. apply IH. intros s' y Hy.
  apply Hbody. by right.
Qed.

Lemma populated_empty : populated ∅.
Proof. intros a ends H. by rewrite lookup_empty in H. Qed.

Lemma populated_addPath idx From to path :
  populated idx → populated (EdgeTokenFilter.addPath idx From to path).
Proof.
  intros Hpop a ends. unfold EdgeTokenFilter.addPath.
  destruct (decide (From = a)) as [->|Hne].
  - rewrite lookup_insert_eq. intros [= <-]. split.
    + exists to. by rewrite lookup_insert_eq.
    + intros b paths. destruct (decide (to = b)) as [->|Hb].
      * rewrite lookup_insert_eq. intros [= <-]. exists path. set_solver.
      * rewrite lookup_insert_ne by done.
        destruct (idx !! a) as [old|] eqn:Ha; simpl.
        -- intros Hl. by eapply (Hpop a old).
        -- by rewrite lookup_empty.
  - rewrite lookup_insert_ne by done. apply Hpop.
Qed.

Lemma gather_populated pathsPerLength result :
  EdgeTokenFilter.gather pathsPerLength = Ok result → populated result.
Proof.
  unfold EdgeTokenFilter.gather.
  apply for_each_preserves; [|apply populated_empty].
  intros s p s'. apply for_each_preserves. clear s s'.
  intros s From s'. apply for_each_preserves. clear s s'.
  intros s to s' Hs.
  destruct (EdgeTokenFilter.getPaths p From to) as [[r|]| |]; simpl;
    try done.
  revert Hs. apply for_each_preserves.
  intros s1 path s2 Hs1 [= <-]. by apply populated_addPath.
Qed.

Section more_paths.

Variable getTypePrefix : Edge → string.
Variable iter_next : gset Edge → outcome Edge.
Variable path_in : gset Edge → gset Edge → bool.

Local Abbreviation calculatePaths :=
  (EdgeTokenFilter.calculatePaths getTypePrefix iter_next path_in).
Local Abbreviation filterEdges :=
  (EdgeTokenFilter.filterEdges getTypePrefix iter_next path_in).
Local Abbreviation filter :=
  (EdgeTokenFilter.filter getTypePrefix iter_next path_in).

(** X11: for every collection of edges and all fuel but none,
    [calculatePaths] returns, and the paths of its index are the one-edge
    paths: each edge between its two ends, in both directions, and no
    path of two edges or more. *)
Theorem calculatePaths_one_edge_paths (fuel : nat) (edges : collection) :
  ∃ idx, calculatePaths (S fuel) edges = Ok idx ∧
    ∀ a b q, recorded idx a b q ↔
             ∃ e, e ∈ iter_edges edges ∧ q = {[e]} ∧ joins e a b.
Proof. apply calculatePaths_direct. Qed.

(** X12: the keys of the index [calculatePaths] returns are the ends of
    the edges, and the tokens [getTos] lists for a key are the tokens an
    edge joins it with; a token no edge touches is no key. *)
Theorem calculatePaths_keys (fuel : nat) (edges : collection) :
  ∃ idx, calculatePaths (S fuel) edges = Ok idx ∧
    (∀ a, a ∈ EdgeTokenFilter.keys idx ↔ is_end edges a) ∧
    (∀ a b, b ∈ EdgeTokenFilter.getTos idx (EdgeTokenFilter.TokenInstance a) ↔
            ∃ e, e ∈ iter_edges edges ∧ joins e a b).
Proof.
  destruct (calculatePaths_direct getTypePrefix iter_next path_in fuel edges)
    as (idx & Hidx & Hrec).
  exists idx. split; [done|].
  assert (populated idx) as Hpop.
  { unfold EdgeTokenFilter.calculatePaths in Hidx.
    rewrite levels_once in Hidx. by apply gather_populated in Hidx. }
  assert (∀ a b, b ∈ EdgeTokenFilter.getTos idx
                       (EdgeTokenFilter.TokenInstance a) ↔
                 ∃ e, e ∈ iter_edges edges ∧ joins e a b) as Htos.
  { intros a b. rewrite getTos_spec. split.
    - intros (ends & paths & Ha & Hb).
      destruct (Hpop a ends Ha) as [_ Hq].
      destruct (Hq b paths Hb) as [q Hin].
      assert (recorded idx a b q) as (e & He & _ & Hj)%Hrec
        by by exists ends, paths.
      by exists e.
    - intros (e & He & Hj).
      assert (recorded idx a b {[e]}) as (ends & paths & ? & ? & _).
      { apply Hrec. by exists e. }
      by exists ends, paths. }
  split; [|done]. intros a. rewrite keys_spec. unfold is_end. split.
  - intros [ends Ha]. destruct (Hpop a ends Ha) as [[b [paths Hb]] _].
    assert (b ∈ EdgeTokenFilter.getTos idx (EdgeTokenFilter.TokenInstance a))
      as (e & He & Hj)%Htos.
    { apply getTos_spec. by exists ends, paths. }
    exists e. split; [done|]. destruct Hj as [[-> _]|[-> _]]; auto.
  - intros (e & He & Ha).
    assert (∃ b, joins e a b) as [b Hj].
    { destruct Ha as [->| ->]; [exists (To e); by left
                                | exists (From e); by right]. }
    assert (b ∈ EdgeTokenFilter.getTos idx (EdgeTokenFilter.TokenInstance a))
      as (ends & ? & Hends & _)%getTos_spec.
    { apply Htos. by exists e. }
    by exists ends.
Qed.

(** ** EdgeTokenFilter.py: filterEdges *)

(** X13: with a non-empty allowed set and paths on, [filterEdges] returns
    the set of the input edges both ends of which qualify. *)
Theorem filterEdges_usePath_both_ends (fuel : nat) (self : EdgeTokenFilter.t)
    (original : collection) :
  EdgeTokenFilter._allowedProperties self ≠ ∅ →
  EdgeTokenFilter._usePath self = true →
  ∃ result, filterEdges (S fuel) self original = Ok (AsSet result) ∧
    ∀ e, e ∈ result ↔
         e ∈ iter_edges original ∧
         EdgeTokenFilter.qualifies self (From e) = true ∧
         EdgeTokenFilter.qualifies self (To e) = true.
Proof. apply filterEdges_onPaths. Qed.

(** X14: every edge the filter keeps with paths on it also keeps with
    paths off. *)
Theorem filterEdges_usePath_keeps_less (fuel : nat) (self : EdgeTokenFilter.t)
    (original : collection) :
  EdgeTokenFilter._allowedProperties self ≠ ∅ →
  ∃ (onPaths : gset Edge) (onEnds : list Edge),
    filterEdges (S fuel) (set_usePath self true) original
    = Ok (AsSet onPaths) ∧
    filterEdges (S fuel) (set_usePath self false) original
    = Ok (AsList onEnds) ∧
    ∀ e, e ∈ onPaths → e ∈ onEnds.
Proof.
  intros Hne.
  destruct (filterEdges_onPaths getTypePrefix iter_next path_in fuel
              (set_usePath self true) original Hne eq_refl)
    as (result & Hres & Hin).
  exists result. eexists. split; [done|]. split.
  - by apply filterEdges_onEnds.
  - intros e (He & Hf & _)%Hin.
    apply list_elem_of_In, filter_In. split; [by apply list_elem_of_In|].
    change (EdgeTokenFilter.qualifies (set_usePath self true) (From e))
      with (EdgeTokenFilter.qualifies (set_usePath self false) (From e)) in Hf.
    by rewrite Hf.
Qed.

(** X15: with paths on, when at most one end of the edges qualifies and
    no edge runs from a token to itself, nothing is kept. *)
Theorem filterEdges_usePath_one_anchor (fuel : nat) (self : EdgeTokenFilter.t)
    (original : collection) :
  EdgeTokenFilter._allowedProperties self ≠ ∅ →
  EdgeTokenFilter._usePath self = true →
  (∀ e, e ∈ iter_edges original → From e ≠ To e) →
  (∀ a b, is_end original a → is_end original b →
          EdgeTokenFilter.qualifies self a = true →
          EdgeTokenFilter.qualifies self b = true → a = b) →
  filterEdges (S fuel) self original = Ok (AsSet ∅).
Proof.
  intros Hne Hpath Hloop Hone.
  destruct (filterEdges_onPaths getTypePrefix iter_next path_in fuel self
              original Hne Hpath) as (result & -> & Hin).
  do 2 f_equal. apply set_eq. intros e. rewrite Hin. split.
  - intros (He & Hf & Ht). destruct (Hloop e He).
    apply Hone; try done; exists e; auto.
  - by intros ?%not_elem_of_empty.
Qed.

(** X16: given some fuel, [filterEdges] returns in every mode, neither
    raising nor running out of fuel, and returns edges of its input
    only. *)
Theorem filterEdges_returns_input_edges (fuel : nat)
    (self : EdgeTokenFilter.t) (original : collection) :
  ∃ kept, filterEdges (S fuel) self original = Ok kept ∧
          ∀ e, e ∈ iter_edges kept → e ∈ iter_edges original.
Proof. apply filterEdges_total. Qed.

(** X17: in every mode, filtering the result of [filterEdges] again
    returns it unchanged. *)
Theorem filterEdges_idempotent (fuel : nat) (self : EdgeTokenFilter.t)
    (original : collection) :
  ∃ kept, filterEdges (S fuel) self original = Ok kept ∧
          filterEdges (S fuel) self kept = Ok kept.
Proof.
  destruct (decide (EdgeTokenFilter._allowedProperties self = ∅)) as [He|Hne].
  - exists original. unfold EdgeTokenFilter.filterEdges.
    by rewrite !bool_decide_eq_true_2 by (by apply size_zero_iff).
  - destruct (EdgeTokenFilter._usePath self) eqn:Hpath.
    + destruct (filterEdges_onPaths getTypePrefix iter_next path_in fuel self
                  original Hne Hpath) as (result & Hres & Hin).
      destruct (filterEdges_onPaths getTypePrefix iter_next path_in fuel self
                  (AsSet result) Hne Hpath) as (again & Hres' & Hin').
      exists (AsSet result). split; [done|]. rewrite Hres'.
      do 2 f_equal. apply set_eq. intros e. rewrite Hin'. simpl.
      rewrite elem_of_elements, Hin. tauto.
    + eexists. split; [by apply filterEdges_onEnds|].
      rewrite filterEdges_onEnds by done. simpl.
      by rewrite filter_filter_same.
Qed.

(** ** EdgeTokenFilter.py: filter *)

(** X18: without collapsing, [filter] returns on every instance, be it
    well-formed or not: the tokens, the render type and the split points
    of the original, and the edges [filterEdges] keeps. *)
Theorem filter_without_collapse (fuel : nat) (self : EdgeTokenFilter.t)
    (original : NLPInstance) :
  EdgeTokenFilter._collaps self = false →
  ∃ kept, filterEdges (S fuel) self (getEdges original) = Ok kept ∧
    filter (S fuel) self original
    = Ok (mkNLPInstance (tokens original) kept
            (instanceRenderType original) (splitPoints original)).
Proof.
  intros Hcol.
  destruct (filterEdges_total getTypePrefix iter_next path_in fuel self
              (getEdges original)) as (kept & Hkept & _).
  exists kept. split; [done|].
  unfold EdgeTokenFilter.filter. rewrite Hkept. simpl. by rewrite Hcol.
Qed.

(** X19: collapsing a well-formed instance in which an edge is kept, or
    which has no split point, returns an instance whose tokens are the
    surviving tokens by increasing index, renumbered from 0 with their
    properties, and whose edges are the kept edges between the new
    tokens, the other attributes unchanged. *)
Theorem collapse_tokens_and_edges (fuel : nat) (self : EdgeTokenFilter.t)
    (original : NLPInstance) :
  well_formed original →
  EdgeTokenFilter._collaps self = true →
  ∃ kept, filterEdges (S fuel) self (getEdges original) = Ok kept ∧
    (iter_edges kept ≠ [] ∨ splitPoints original = [] →
     ∃ survivors updatedEdges newSplitPoints,
       filter (S fuel) self original
       = Ok (mkNLPInstance (imap new_token survivors) (AsSet updatedEdges)
               (instanceRenderType original) newSplitPoints) ∧
       (∀ tok, tok ∈ survivors ↔ survives original (iter_edges kept) tok) ∧
       increasing survivors ∧
       (∀ e', e' ∈ updatedEdges ↔
              ∃ e, e ∈ iter_edges kept ∧ rewired survivors e e')).
Proof.
  intros Hwf Hcol.
  destruct (filterEdges_total getTypePrefix iter_next path_in fuel self
              (getEdges original)) as (kept & Hkept & _).
  exists kept. split; [done|]. intros [Hne|Hsp].
  - destruct (collapse_some_kept getTypePrefix iter_next path_in fuel self
                original kept Hwf Hcol Hkept Hne)
      as (survivors & updatedEdges & ks & Hrun & Hsurv & Hinc & Hedges & _).
    by exists survivors, updatedEdges, (Z.of_nat <$> ks).
  - destruct (collapse_no_split_points getTypePrefix iter_next path_in fuel
                self original kept Hwf Hcol Hkept Hsp)
      as (survivors & updatedEdges & Hrun & Hsurv & Hinc & Hedges).
    by exists survivors, updatedEdges, [].
Qed.

(** X20: on a well-formed instance [filter] returns an instance in every
    case but one: it collapses, no edge is kept, and the instance has a
    split point. *)
Theorem filter_returns_unless (fuel : nat) (self : EdgeTokenFilter.t)
    (original : NLPInstance) :
  well_formed original →
  ∃ kept, filterEdges (S fuel) self (getEdges original) = Ok kept ∧
    ((∃ result, filter (S fuel) self original = Ok result) ↔
     ¬ (EdgeTokenFilter._collaps self = true ∧ iter_edges kept = [] ∧
        splitPoints original ≠ [])).
Proof. apply filter_returns_iff. Qed.

Lemma remapped_lt olds sp k : remapped olds sp k → (k < length olds)%nat.
Proof.
  intros [(o & Ho & _)|[_ Hk]]; [by eapply lookup_lt_Some | lia].
Qed.

Lemma remapped_mono olds sp1 sp2 k1 k2 :
  sp1 ≤ sp2 → remapped olds sp1 k1 → remapped olds sp2 k2 → (k1 ≤ k2)%nat.
Proof.
  intros Hsp H1 H2. pose proof (remapped_lt _ _ _ H1) as Hk1.
  destruct H2 as [(o2 & Ho2 & Hle2 & _)|[_ Hk2]]; [|lia].
  destruct H1 as [(o1 & Ho1 & Hle1 & Hbefore)|[Hall _]].
  - destruct (decide (k1 ≤ k2)%nat) as [?|Hgt]; [done|].
    specialize (Hbefore k2 o2 ltac:(lia) Ho2). lia.
  - specialize (Hall o2 (list_elem_of_lookup_2 _ _ _ Ho2)). lia.
Qed.

Lemma remapped_sorted olds sps ks :
  Sorted Z.le sps → Forall2 (remapped olds) sps ks →
  Sorted Z.le (Z.of_nat <$> ks).
Proof.
  intros Hs%Sorted_StronglySorted Hks; [|intros ???; lia].
  apply StronglySorted_Sorted.
  induction Hks as [|sp k sps ks Hr Hks IH]; simpl; [constructor|].
  apply StronglySorted_inv in Hs as [Hs Hall]. constructor; [by apply IH|].
  rewrite Forall_forall in Hall. apply Forall_forall.
  intros z (k' & -> & Hk')%list_elem_of_fmap.
  apply list_elem_of_lookup in Hk' as (i & Hi).
  destruct (Forall2_lookup_r _ _ _ _ _ Hks Hi) as (sp' & Hsp' & Hr').
  pose proof (Hall sp' (list_elem_of_lookup_2 _ _ _ Hsp')) as Hle.
  pose proof (remapped_mono _ _ _ _ _ Hle Hr Hr'). lia.
Qed.

(** X21: collapsing keeps an instance well-formed: where the original is
    well-formed and an edge is kept, or there is no split point, the
    instance [filter] returns has dense token indices, edges between its
    own tokens, spans from left to right, and non-decreasing split points
    within its tokens. *)
Theorem collapse_keeps_well_formed (fuel : nat) (self : EdgeTokenFilter.t)
    (original : NLPInstance) :
  well_formed original →
  EdgeTokenFilter._collaps self = true →
  ∃ kept, filterEdges (S fuel) self (getEdges original) = Ok kept ∧
    (iter_edges kept ≠ [] ∨ splitPoints original = [] →
     ∃ result, filter (S fuel) self original = Ok result ∧
               well_formed result).
Proof.
  intros Hwf Hcol.
  destruct (filterEdges_total getTypePrefix iter_next path_in fuel self
              (getEdges original)) as (kept & Hkept & Hsub).
  exists kept. split; [done|]. intros Hcase.
  assert (∃ survivors updatedEdges (ks : list nat),
    filter (S fuel) self original
    = Ok (mkNLPInstance (imap new_token survivors) (AsSet updatedEdges)
            (instanceRenderType original) (Z.of_nat <$> ks)) ∧
    increasing survivors ∧
    (∀ e', e' ∈ updatedEdges ↔
           ∃ e, e ∈ iter_edges kept ∧ rewired survivors e e') ∧
    Forall2 (remapped (index <$> survivors)) (splitPoints original) ks)
    as (survivors & updatedEdges & ks & Hrun & Hinc & Hedges & Hks).
  { destruct Hcase as [Hne|Hsp].
    - destruct (collapse_some_kept getTypePrefix iter_next path_in fuel self
                  original kept Hwf Hcol Hkept Hne)
        as (survivors & updatedEdges & ks & Hrun & _ & Hinc & Hedges & Hks).
      by exists survivors, updatedEdges, ks.
    - destruct (collapse_no_split_points getTypePrefix iter_next path_in fuel
                  self original kept Hwf Hcol Hkept Hsp)
        as (survivors & updatedEdges & Hrun & _ & Hinc & Hedges).
      exists survivors, updatedEdges, []. rewrite Hsp.
      split; [done|]. split; [done|]. split; [done | constructor]. }
  eexists. split; [exact Hrun|]. split; simpl.
  - intros i tok (old & _ & ->)%list_lookup_imap_Some. done.
  - intros e' (e & He & i & j & Hi & Hj & ->)%elem_of_elements%Hedges. simpl.
    split; by eapply elem_of_lookup_imap_2.
  - intros e' (e & He & i & j & Hi & Hj & ->)%elem_of_elements%Hedges. simpl.
    intros Hspan.
    pose proof (wf_span original Hwf e (Hsub e He) Hspan) as Hle.
    destruct (decide (i ≤ j)%nat) as [?|Hgt]; [lia|].
    pose proof (Hinc j i _ _ ltac:(lia) Hj Hi). lia.
  - intros sp (k & -> & Hk)%list_elem_of_fmap. rewrite length_imap.
    apply list_elem_of_lookup in Hk as (i & Hi).
    destruct (Forall2_lookup_r _ _ _ _ _ Hks Hi) as (sp' & _ & Hr).
    apply remapped_lt in Hr. rewrite length_fmap in Hr. lia.
  - eapply remapped_sorted; [|done]. by apply wf_split_sorted.
Qed.

Lemma increasing_tail x l : increasing (x :: l) → increasing l.
Proof.
  intros H i j a b Hij Ha Hb. apply (H (S i) (S j) a b); [lia | done | done].
Qed.

Lemma increasing_head x l y : increasing (x :: l) → y ∈ l → index x < index y.
Proof.
  intros H (i & Hi)%list_elem_of_lookup.
  apply (H 0%nat (S i) x y); [lia | done | done].
Qed.

(** Two lists of tokens by strictly increasing index with the same members
    are the same list. *)
Lemma increasing_ext l1 l2 :
  increasing l1 → increasing l2 → (∀ x, x ∈ l1 ↔ x ∈ l2) → l1 = l2.
Proof.
  revert l2. induction l1 as [|x l1 IH]; intros l2 H1 H2 Hmem.
  - destruct l2 as [|y l2]; [done|].
    assert (y ∈ ([] : list Token)) as ?%elem_of_nil; [|done].
    apply Hmem. by left.
  - destruct l2 as [|y l2].
    { assert (x ∈ ([] : list Token)) as ?%elem_of_nil; [|done].
      apply Hmem. by left. }
    assert (x = y) as <-.
    { assert (x ∈ y :: l2) as [->|Hx]%elem_of_cons by (apply Hmem; by left);
        [done|].
      assert (y ∈ x :: l1) as [->|Hy]%elem_of_cons by (apply Hmem; by left);
        [done|].
      pose proof (increasing_head _ _ _ H1 Hy).
      pose proof (increasing_head _ _ _ H2 Hx). lia. }
    f_equal. apply IH; [by eapply increasing_tail..|].
    intros z. split; intros Hz.
    + assert (z ∈ x :: l2) as [->|?]%elem_of_cons; [|exfalso|done].
      { apply Hmem. by right. }
      pose proof (increasing_head _ _ _ H1 Hz). lia.
    + assert (z ∈ x :: l1) as [->|?]%elem_of_cons; [|exfalso|done].
      { apply Hmem. by right. }
      pose proof (increasing_head _ _ _ H2 Hz). lia.
Qed.

Lemma wf_tokens_increasing inst : well_formed inst → increasing (tokens inst).
Proof.
  intros Hwf i j a b Hij Ha Hb.
  rewrite (wf_dense inst Hwf i a Ha), (wf_dense inst Hwf j b Hb). lia.
Qed.

Lemma wf_imap_new_token inst :
  well_formed inst → imap new_token (tokens inst) = tokens inst.
Proof.
  intros Hwf. apply list_eq. intros k. rewrite list_lookup_imap.
  destruct (tokens inst !! k) as [tok|] eqn:Hk; simpl; [|done].
  unfold new_token. rewrite <- (wf_dense inst Hwf k tok Hk). by destruct tok.
Qed.

(** Among all the tokens of a well-formed instance a split point is
    remapped to itself. *)
Lemma wf_remapped_same inst sp k :
  well_formed inst → 0 ≤ sp < Z.of_nat (length (tokens inst)) →
  remapped (index <$> tokens inst) sp k → Z.of_nat k = sp.
Proof.
  intros Hwf Hsp Hr.
  assert (∀ j : nat, (j < length (tokens inst))%nat →
                     (index <$> tokens inst) !! j = Some (Z.of_nat j)) as Hat.
  { intros j Hj. rewrite list_lookup_fmap.
    destruct (lookup_lt_is_Some_2 (tokens inst) j Hj) as [tok Htok].
    rewrite Htok. simpl. by rewrite (wf_dense inst Hwf j tok Htok). }
  destruct Hr as [(o & Ho & Hle & Hbefore)|[Hall Hk]].
  - pose proof (lookup_lt_Some _ _ _ Ho) as Hlt. rewrite length_fmap in Hlt.
    rewrite (Hat k Hlt) in Ho. injection Ho as <-.
    destruct (decide (Z.of_nat k = sp)) as [?|Hne]; [done|].
    specialize (Hbefore (Z.to_nat sp) sp ltac:(lia)).
    rewrite (Hat (Z.to_nat sp)) in Hbefore by lia.
    rewrite Z2Nat.id in Hbefore by lia. specialize (Hbefore eq_refl). lia.
  - specialize (Hall sp). rewrite list_elem_of_lookup in Hall.
    assert (sp < sp); [|lia]. apply Hall. exists (Z.to_nat sp).
    rewrite (Hat (Z.to_nat sp)) by lia. f_equal. lia.
Qed.

(** X22: collapsing a well-formed instance all tokens of which survive
    changes neither the tokens nor the split points; the edges it returns
    are the kept edges, as a set. *)
Theorem collapse_without_dangling_tokens (fuel : nat)
    (self : EdgeTokenFilter.t) (original : NLPInstance) :
  well_formed original →
  EdgeTokenFilter._collaps self = true →
  ∃ kept, filterEdges (S fuel) self (getEdges original) = Ok kept ∧
    ((∀ tok, tok ∈ tokens original →
             survives original (iter_edges kept) tok) →
     filter (S fuel) self original
     = Ok (mkNLPInstance (tokens original)
             (AsSet (list_to_set (iter_edges kept)))
             (instanceRenderType original) (splitPoints original))).
Proof.
  intros Hwf Hcol.
  destruct (filterEdges_total getTypePrefix iter_next path_in fuel self
              (getEdges original)) as (kept & Hkept & Hsub).
  exists kept. split; [done|]. intros Hall.
  destruct (collapse_steps getTypePrefix iter_next path_in fuel self original
              kept Hwf Hcol Hkept)
    as (survivors & new2old & updatedEdges & Hrun & Hsurv & Hinc & Hback
        & Hedges & Hnil).
  assert (survivors = tokens original) as ->.
  { apply increasing_ext; [done | by apply wf_tokens_increasing|].
    intros tok. rewrite Hsurv. split; [by intros [? _] | apply Hall]. }
  rewrite (wf_imap_new_token original Hwf) in Hrun, Hback.
  assert (updatedEdges = list_to_set (iter_edges kept)) as ->.
  { apply set_eq. intros e'. rewrite Hedges, elem_of_list_to_set. split.
    - intros (e & He & i & j & Hi & Hj & ->).
      unfold new_token.
      rewrite <- (wf_dense original Hwf i _ Hi).
      rewrite <- (wf_dense original Hwf j _ Hj).
      by destruct e as [[] [] ? ? ? ? ?].
    - intros He. exists e'. split; [done|].
      destruct (wf_ends original Hwf e' (Hsub e' He)) as [Hf Ht].
      apply list_elem_of_lookup in Hf as (i & Hi).
      apply list_elem_of_lookup in Ht as (j & Hj).
      exists i, j. split; [done|]. split; [done|]. unfold new_token.
      rewrite <- (wf_dense original Hwf i _ Hi).
      rewrite <- (wf_dense original Hwf j _ Hj).
      by destruct e' as [[] [] ? ? ? ? ?]. }
  rewrite Hrun.
  destruct (tokens original) as [|tok toks] eqn:Htoks.
  - destruct (splitPoints original) as [|sp sps] eqn:Hsps; [done|].
    pose proof (wf_split_range original Hwf sp) as Hr.
    rewrite Htoks, Hsps in Hr. simpl in Hr.
    specialize (Hr ltac:(by left)). lia.
  - destruct (resplit_spec (tok :: toks) (tok :: toks) new2old Hback
                (splitPoints original)) as (ks & -> & Hks).
    { by apply wf_split_sorted. }
    { simpl. lia. }
    simpl. do 2 f_equal.
    assert (∀ sp, sp ∈ splitPoints original →
                  0 ≤ sp < Z.of_nat (length (tokens original))) as Hrange
      by apply (wf_split_range original Hwf).
    rewrite <- Htoks in Hks. clear Hrun Hback Hedges Hnil Hsurv Hinc.
    induction Hks as [|sp k sps ks Hr Hks IH]; simpl; [done|].
    f_equal.
    + apply (wf_remapped_same original); [done | | done].
      apply Hrange. by left.
    + apply IH. intros sp' Hsp'. apply Hrange. by right.
Qed.

Lemma touched_reversed_spans original edges :
  Forall reversed_span edges →
  EdgeTokenFilter.touched original edges = Ok ∅.
Proof.
  intros Hall. unfold EdgeTokenFilter.touched. apply for_each_skip_on.
  intros s e He. rewrite Forall_forall in Hall.
  destruct (Hall e He) as [-> Hlt]. unfold py_range.
  by replace (Z.to_nat (index (To e) + 1 - index (From e))) with 0%nat by lia.
Qed.

(** X23: when every edge the filter keeps is a span from right to left,
    collapsing raises [KeyError]: no token is taken over, and the first
    edge finds no new token for its start. *)
Theorem collapse_reversed_spans_raise (fuel : nat) (usePath wholeWords : bool)
    (original : NLPInstance) (e : Edge) (es : list Edge) :
  iter_edges (getEdges original) = e :: es →
  Forall reversed_span (e :: es) →
  filter (S fuel) (EdgeTokenFilter.mk usePath true wholeWords ∅) original
  = Raise KeyError.
Proof.
  intros Hedges Hall. unfold EdgeTokenFilter.filter.
  rewrite property_filterEdges_empty. simpl.
  rewrite Hedges, (touched_reversed_spans original (e :: es) Hall). simpl.
  unfold EdgeTokenFilter.sorted. rewrite elements_empty. reflexivity.
Qed.

End more_paths.

(** ** whatswrong_SVG.py: MyForm.choosenFile *)

Section more_choosenFile.

Variable strip : string → string.
Variable create : list string → NLPInstance.

Local Abbreviation instance_of := (MyForm.instance_of create).
Local Abbreviation read_lines := (MyForm.read_lines strip create).
Local Abbreviation choosenFile := (MyForm.choosenFile strip create).
Local Abbreviation groups_from := (MyForm.groups_from strip).

(** What the loop and the lines after it add to the corpus. *)
Lemma read_lines_groups l corpus rows (n : nat) :
  (n ≤ 200)%nat → (n = 200%nat → rows = []) →
  (let '(corpus', rows', _) := read_lines l corpus rows n in
   if bool_decide (0 < length rows')%nat then corpus' ++ [instance_of rows']
   else corpus')
  = corpus ++ (instance_of <$> take (200 - n) (groups_from rows l)).
Proof.
  revert corpus rows n. induction l as [|line l IH]; intros corpus rows n Hn Hrows.
  - cbn [MyForm.read_lines MyForm.groups_from]. destruct rows as [|r rows].
    + rewrite bool_decide_eq_false_2 by (simpl; lia).
      by rewrite take_nil, app_nil_r.
    + rewrite bool_decide_eq_true_2 by (simpl; lia).
      replace (200 - n)%nat with (S (200 - S n)) by
        (destruct (decide (n = 200%nat)) as [Hn'|?]; [by apply Hrows in Hn' | lia]).
      change (take (S (200 - S n)) [r :: rows])
        with ((r :: rows) :: take (200 - S n) []).
      by rewrite take_nil.
  - cbn [MyForm.read_lines MyForm.groups_from].
    destruct (decide (n = 200%nat)) as [Hn'|Hn'].
    + rewrite (bool_decide_eq_true_2 _ Hn'). rewrite (Hrows Hn').
      rewrite bool_decide_eq_false_2 by (simpl; lia).
      replace (200 - n)%nat with 0%nat by lia. by rewrite app_nil_r.
    + rewrite (bool_decide_eq_false_2 _ Hn').
      destruct (decide (strip line = EmptyString)) as [Hb|Hb].
      * rewrite !(bool_decide_eq_true_2 _ Hb).
        rewrite IH by (lia || done).
        replace (200 - n)%nat with (S (200 - (n + 1))) by lia.
        by rewrite <- app_assoc.
      * rewrite !(bool_decide_eq_false_2 _ Hb).
        apply IH; [done | lia].
Qed.

Lemma choosenFile_groups_aux (l : list string) :
  choosenFile l = instance_of <$> take 200 (groups_from [] l).
Proof.
  unfold MyForm.choosenFile.
  pose proof (read_lines_groups l [] [] 0%nat ltac:(lia) ltac:(done)) as H.
  destruct (read_lines l [] [] 0%nat) as [[corpus rows] n]. exact H.
Qed.

(** X24: the corpus is made of the groups of stripped lines between the
    blank lines of the file, one instance of render type [single] for each
    of the first 200 groups; lines after a last blank line are a group,
    and a blank line closes a group also when the group has no line. *)
Theorem choosenFile_groups (l : list string) :
  choosenFile l
  = (λ rows, MyForm.set_renderType (create rows) single)
    <$> take 200 (groups_from [] l).
Proof. apply choosenFile_groups_aux. Qed.

(** X25: the corpus never holds more than 200 instances, however many
    groups of lines the file has. *)
Theorem choosenFile_at_most_200 (l : list string) :
  (length (choosenFile l) ≤ 200)%nat.
Proof.
  rewrite choosenFile_groups_aux, length_fmap, length_take. lia.
Qed.

Lemma groups_from_blank rows l :
  (∀ line, line ∈ l → strip line = EmptyString) →
  l ≠ [] →
  groups_from rows l = rows :: replicate (length l - 1) [].
Proof.
  revert rows. induction l as [|line l IH]; intros rows Hall Hne; [done|].
  cbn [MyForm.groups_from].
  rewrite bool_decide_eq_true_2 by (apply Hall; by left).
  f_equal. destruct l as [|line' l]; [done|].
  rewrite IH; [|intros ? ?; apply Hall; by right | done].
  simpl. by rewrite Nat.sub_0_r.
Qed.

(** X26: a file of [n] blank lines gives [n] instances, 200 at most, each
    created from no rows. *)
Theorem choosenFile_blank_lines (l : list string) :
  (∀ line, line ∈ l → strip line = EmptyString) →
  choosenFile l
  = replicate (min (length l) 200)
              (MyForm.set_renderType (create []) single).
Proof.
  intros Hall. rewrite choosenFile_groups_aux.
  destruct l as [|line l]; [done|].
  rewrite groups_from_blank by done.
  change ([] :: replicate (length (line :: l) - 1) [])
    with (replicate (S (length (line :: l) - 1)) ([] : list string)).
  replace (S (length (line :: l) - 1)) with (length (line :: l))
    by (simpl; lia).
  by rewrite take_replicate, fmap_replicate, Nat.min_comm.
Qed.

Lemma groups_from_no_blank rows l :
  (∀ line, line ∈ l → strip line ≠ EmptyString) →
  groups_from rows l
  = match rows ++ (strip <$> l) with [] => [] | g => [g] end.
Proof.
  revert rows. induction l as [|line l IH]; intros rows Hall.
  - cbn [MyForm.groups_from]. simpl. rewrite app_nil_r. by destruct rows.
  - cbn [MyForm.groups_from].
    rewrite bool_decide_eq_false_2 by (apply Hall; by left).
    rewrite IH by (intros ? ?; apply Hall; by right).
    by rewrite <- app_assoc.
Qed.

(** X27: a file with lines, none of them blank, gives one instance,
    created from all the lines, stripped; a file without a line gives an
    empty corpus. *)
Theorem choosenFile_no_blank_line (l : list string) :
  (∀ line, line ∈ l → strip line ≠ EmptyString) →
  choosenFile l
  = match l with
    | [] => []
    | _ => [MyForm.set_renderType (create (strip <$> l)) single]
    end.
Proof.
  intros Hall. rewrite choosenFile_groups_aux.
  rewrite groups_from_no_blank by done. by destruct l.
Qed.

End more_choosenFile.

(** ** The further theorems at concrete inputs *)

Lemma label_filterEdges_empty_string_witness :
  EmptyString ∈ EdgeLabelFilter._allowedLabels
                  (EdgeLabelFilter.mk {[EmptyString]}) ∧
  EdgeLabelFilter.filterEdges (EdgeLabelFilter.mk {[EmptyString]})
                              (AsList [edgeAB; edgeBC])
  = AsList [edgeAB; edgeBC].
Proof.
  assert (EmptyString ∈ EdgeLabelFilter._allowedLabels
                          (EdgeLabelFilter.mk {[EmptyString]})) as Hin.
  { cbn [EdgeLabelFilter._allowedLabels]. by apply elem_of_singleton. }
  split; [exact Hin|].
  exact (label_filterEdges_empty_string (EdgeLabelFilter.mk {[EmptyString]})
           (AsList [edgeAB; edgeBC]) Hin).
Defined.

Lemma label_filterEdges_union_witness :
  ({["det"]} : gset string) ≠ ∅ ∧ ({["subj"]} : gset string) ≠ ∅ ∧
  (label_keeps ({["det"]} ∪ {["subj"]}) (AsList [edgeAB; edgeBC]) edgeBC ↔
   label_keeps {["det"]} (AsList [edgeAB; edgeBC]) edgeBC
   ∨ label_keeps {["subj"]} (AsList [edgeAB; edgeBC]) edgeBC).
Proof.
  assert (({["det"]} : gset string) ≠ ∅) as HA
    by apply non_empty_singleton_L.
  assert (({["subj"]} : gset string) ≠ ∅) as HB
    by apply non_empty_singleton_L.
  split; [exact HA|]. split; [exact HB|].
  exact (label_filterEdges_union {["det"]} {["subj"]}
           (AsList [edgeAB; edgeBC]) edgeBC HA HB).
Defined.

Lemma onlyDogs_allowed : EdgeTokenFilter._allowedProperties onlyDogs ≠ ∅.
Proof.
  unfold onlyDogs. cbn [EdgeTokenFilter._allowedProperties].
  apply non_empty_singleton_L.
Qed.

Lemma filterEdges_usePath_both_ends_witness :
  EdgeTokenFilter._allowedProperties onlyDogs ≠ ∅ ∧
  EdgeTokenFilter._usePath onlyDogs = true ∧
  ∃ result,
    EdgeTokenFilter.filterEdges type (λ _, Raise AttributeError) (λ _ _, false)
      1 onlyDogs (AsList [edgeAB; edgeBC]) = Ok (AsSet result) ∧
    ∀ e, e ∈ result ↔
         e ∈ [edgeAB; edgeBC] ∧
         EdgeTokenFilter.qualifies onlyDogs (From e) = true ∧
         EdgeTokenFilter.qualifies onlyDogs (To e) = true.
Proof.
  split; [exact onlyDogs_allowed|]. split; [reflexivity|].
  exact (filterEdges_usePath_both_ends type (λ _, Raise AttributeError)
           (λ _ _, false) 0 onlyDogs (AsList [edgeAB; edgeBC])
           onlyDogs_allowed eq_refl).
Defined.

Lemma filterEdges_usePath_keeps_less_witness :
  EdgeTokenFilter._allowedProperties onlyDogs ≠ ∅ ∧
  ∃ (onPaths : gset Edge) (onEnds : list Edge),
    EdgeTokenFilter.filterEdges type (λ _, Raise AttributeError) (λ _ _, false)
      1 (set_usePath onlyDogs true) (AsList [edgeAB; edgeBC])
    = Ok (AsSet onPaths) ∧
    EdgeTokenFilter.filterEdges type (λ _, Raise AttributeError) (λ _ _, false)
      1 (set_usePath onlyDogs false) (AsList [edgeAB; edgeBC])
    = Ok (AsList onEnds) ∧
    ∀ e, e ∈ onPaths → e ∈ onEnds.
Proof.
  split; [exact onlyDogs_allowed|].
  exact (filterEdges_usePath_keeps_less type (λ _, Raise AttributeError)
           (λ _ _, false) 0 onlyDogs (AsList [edgeAB; edgeBC])
           onlyDogs_allowed).
Defined.

Lemma chain_without_loop :
  ∀ e, e ∈ iter_edges (AsList [edgeAB; edgeBC]) → From e ≠ To e.
Proof.
  intros e He. cbn [iter_edges] in He.
  apply elem_of_cons in He as [->|He];
    [|apply list_elem_of_singleton in He as ->];
    intros H; apply (f_equal index) in H; vm_compute in H; discriminate H.
Qed.

Lemma chain_ends a :
  is_end (AsList [edgeAB; edgeBC]) a → a = tokA ∨ a = tokB ∨ a = tokC.
Proof.
  intros (e & He & Ha). cbn [iter_edges] in He.
  apply elem_of_cons in He as [->|He];
    [|apply list_elem_of_singleton in He as ->];
    destruct Ha as [->| ->]; tauto.
Qed.

Lemma chain_one_anchor a b :
  is_end (AsList [edgeAB; edgeBC]) a → is_end (AsList [edgeAB; edgeBC]) b →
  EdgeTokenFilter.qualifies onlyDogs a = true →
  EdgeTokenFilter.qualifies onlyDogs b = true → a = b.
Proof.
  intros Ha%chain_ends Hb%chain_ends Hqa Hqb.
  destruct Ha as [->|[->| ->]]; destruct Hb as [->|[->| ->]];
    first [ reflexivity
          | vm_compute in Hqa; discriminate Hqa
          | vm_compute in Hqb; discriminate Hqb ].
Qed.

Lemma filterEdges_usePath_one_anchor_witness :
  EdgeTokenFilter._allowedProperties onlyDogs ≠ ∅ ∧
  EdgeTokenFilter._usePath onlyDogs = true ∧
  (∀ e, e ∈ iter_edges (AsList [edgeAB; edgeBC]) → From e ≠ To e) ∧
  (∀ a b, is_end (AsList [edgeAB; edgeBC]) a →
          is_end (AsList [edgeAB; edgeBC]) b →
          EdgeTokenFilter.qualifies onlyDogs a = true →
          EdgeTokenFilter.qualifies onlyDogs b = true → a = b) ∧
  EdgeTokenFilter.filterEdges type (λ _, Raise AttributeError) (λ _ _, false)
    1 onlyDogs (AsList [edgeAB; edgeBC]) = Ok (AsSet ∅).
Proof.
  split; [exact onlyDogs_allowed|]. split; [reflexivity|].
  split; [exact chain_without_loop|]. split; [exact chain_one_anchor|].
  exact (filterEdges_usePath_one_anchor type (λ _, Raise AttributeError)
           (λ _ _, false) 0 onlyDogs (AsList [edgeAB; edgeBC])
           onlyDogs_allowed eq_refl chain_without_loop chain_one_anchor).
Defined.

Lemma filter_without_collapse_witness :
  EdgeTokenFilter._collaps (set_collaps onlyFast false) = false ∧
  ∃ kept,
    EdgeTokenFilter.filterEdges type (λ _, Raise AttributeError) (λ _ _, false)
      1 (set_collaps onlyFast false) (getEdges theDogRunsFast) = Ok kept ∧
    EdgeTokenFilter.filter type (λ _, Raise AttributeError) (λ _ _, false)
      1 (set_collaps onlyFast false) theDogRunsFast
    = Ok (mkNLPInstance (tokens theDogRunsFast) kept
            (instanceRenderType theDogRunsFast) (splitPoints theDogRunsFast)).
Proof.
  split; [reflexivity|].
  exact (filter_without_collapse type (λ _, Raise AttributeError)
           (λ _ _, false) 0 (set_collaps onlyFast false) theDogRunsFast
           eq_refl).
Defined.

Lemma collapse_tokens_and_edges_witness :
  well_formed theDogRunsFast ∧
  EdgeTokenFilter._collaps onlyFast = true ∧
  ∃ result survivors,
    EdgeTokenFilter.filter type (λ _, Raise AttributeError) (λ _ _, false)
      1 onlyFast theDogRunsFast = Ok result ∧
    tokens result = imap new_token survivors ∧
    increasing survivors.
Proof.
  split; [exact well_formed_theDogRunsFast|]. split; [reflexivity|].
  destruct (collapse_tokens_and_edges type (λ _, Raise AttributeError)
              (λ _ _, false) 0 onlyFast theDogRunsFast
              well_formed_theDogRunsFast eq_refl)
    as (kept & Hkept & Hsome).
  vm_compute in Hkept. injection Hkept as <-.
  destruct Hsome as (survivors & updatedEdges & sps & Hrun & _ & Hinc & _);
    [left; discriminate|].
  eexists. exists survivors. split; [exact Hrun|]. split; [reflexivity|].
  exact Hinc.
Defined.

Lemma filter_returns_unless_witness :
  well_formed theDogRunsFast ∧
  ∃ kept,
    EdgeTokenFilter.filterEdges type (λ _, Raise AttributeError) (λ _ _, false)
      1 onlyFast (getEdges theDogRunsFast) = Ok kept ∧
    ((∃ result,
        EdgeTokenFilter.filter type (λ _, Raise AttributeError) (λ _ _, false)
          1 onlyFast theDogRunsFast = Ok result) ↔
     ¬ (EdgeTokenFilter._collaps onlyFast = true ∧ iter_edges kept = [] ∧
        splitPoints theDogRunsFast ≠ [])).
Proof.
  split; [exact well_formed_theDogRunsFast|].
  exact (filter_returns_unless type (λ _, Raise AttributeError)
           (λ _ _, false) 0 onlyFast theDogRunsFast
           well_formed_theDogRunsFast).
Defined.

Lemma collapse_keeps_well_formed_witness :
  well_formed theDogRunsFast ∧
  EdgeTokenFilter._collaps onlyFast = true ∧
  ∃ result,
    EdgeTokenFilter.filter type (λ _, Raise AttributeError) (λ _ _, false)
      1 onlyFast theDogRunsFast = Ok result ∧
    well_formed result.
Proof.
  split; [exact well_formed_theDogRunsFast|]. split; [reflexivity|].
  destruct (collapse_keeps_well_formed type (λ _, Raise AttributeError)
              (λ _ _, false) 0 onlyFast theDogRunsFast
              well_formed_theDogRunsFast eq_refl)
    as (kept & Hkept & Hsome).
  vm_compute in Hkept. injection Hkept as <-.
  apply Hsome. left. discriminate.
Defined.

Lemma theDogRunsFast_all_survive tok :
  tok ∈ tokens theDogRunsFast →
  survives theDogRunsFast [edgeAB; edgeBC; edgeCD] tok.
Proof.
  intros Htok. split; [exact Htok|].
  cbn [theDogRunsFast tokens] in Htok.
  apply elem_of_cons in Htok as [->|Htok];
    [|apply elem_of_cons in Htok as [->|Htok];
      [|apply elem_of_cons in Htok as [->|Htok];
        [|apply list_elem_of_singleton in Htok as ->]]].
  - exists edgeAB. split; [apply list_elem_of_here|]. left. reflexivity.
  - exists edgeAB. split; [apply list_elem_of_here|]. right. reflexivity.
  - exists edgeBC.
    split; [apply list_elem_of_further, list_elem_of_here|].
    right. reflexivity.
  - exists edgeCD.
    split; [do 2 apply list_elem_of_further; apply list_elem_of_here|].
    right. reflexivity.
Qed.

Lemma collapse_without_dangling_tokens_witness :
  well_formed theDogRunsFast ∧
  EdgeTokenFilter._collaps collapsing = true ∧
  (∀ tok, tok ∈ tokens theDogRunsFast →
          survives theDogRunsFast [edgeAB; edgeBC; edgeCD] tok) ∧
  EdgeTokenFilter.filter type (λ _, Raise AttributeError) (λ _ _, false)
    1 collapsing theDogRunsFast
  = Ok (mkNLPInstance (tokens theDogRunsFast)
          (AsSet (list_to_set [edgeAB; edgeBC; edgeCD]))
          (instanceRenderType theDogRunsFast) (splitPoints theDogRunsFast)).
Proof.
  split; [exact well_formed_theDogRunsFast|]. split; [reflexivity|].
  split; [exact theDogRunsFast_all_survive|].
  destruct (collapse_without_dangling_tokens type (λ _, Raise AttributeError)
              (λ _ _, false) 0 collapsing theDogRunsFast
              well_formed_theDogRunsFast eq_refl)
    as (kept & Hkept & Hall).
  assert (Ok (getEdges theDogRunsFast) = Ok kept) as [= <-].
  { rewrite <- Hkept. symmetry. apply property_filterEdges_empty. }
  exact (Hall theDogRunsFast_all_survive).
Defined.

Lemma collapse_reversed_spans_raise_witness :
  iter_edges (getEdges backwards) = edgeBA :: [] ∧
  Forall reversed_span (edgeBA :: []) ∧
  EdgeTokenFilter.filter type (λ _, Raise AttributeError) (λ _ _, false)
    1 (EdgeTokenFilter.mk false true false ∅) backwards
  = Raise KeyError.
Proof.
  assert (Forall reversed_span (edgeBA :: [])) as Hall.
  { constructor; [|constructor]. split; reflexivity. }
  split; [reflexivity|]. split; [exact Hall|].
  exact (collapse_reversed_spans_raise type (λ _, Raise AttributeError)
           (λ _ _, false) 0 false false backwards edgeBA [] eq_refl Hall).
Defined.

Lemma choosenFile_blank_lines_witness :
  (∀ line, line ∈ [EmptyString; EmptyString] →
           (λ s : string, s) line = EmptyString) ∧
  MyForm.choosenFile (λ s, s) one_token_per_row [EmptyString; EmptyString]
  = replicate (min (length [EmptyString; EmptyString]) 200)
              (MyForm.set_renderType (one_token_per_row []) single).
Proof.
  assert (∀ line, line ∈ [EmptyString; EmptyString] →
                  (λ s : string, s) line = EmptyString) as Hall.
  { intros line [->|[->|[]%elem_of_nil]%elem_of_cons]%elem_of_cons;
      reflexivity. }
  split; [exact Hall|].
  exact (choosenFile_blank_lines (λ s, s) one_token_per_row
           [EmptyString; EmptyString] Hall).
Defined.

Lemma choosenFile_no_blank_line_witness :
  (∀ line, line ∈ ["The"; "dog"] → (λ s : string, s) line ≠ EmptyString) ∧
  MyForm.choosenFile (λ s, s) one_token_per_row ["The"; "dog"]
  = [MyForm.set_renderType
       (one_token_per_row ((λ s, s) <$> ["The"; "dog"])) single].
Proof.
  assert (∀ line, line ∈ ["The"; "dog"] →
                  (λ s : string, s) line ≠ EmptyString) as Hall.
  { intros line [->|[->|[]%elem_of_nil]%elem_of_cons]%elem_of_cons;
      discriminate. }
  split; [exact Hall|].
  exact (choosenFile_no_blank_line (λ s, s) one_token_per_row
           ["The"; "dog"] Hall).
Defined.

Lemma label_remove_after_add_and_twice_witness :
  EdgeLabelFilter.removeAllowedLabel
    (EdgeLabelFilter.addAllowedLabel (EdgeLabelFilter.mk ∅) "det") "det"
  = Ok (EdgeLabelFilter.mk (∅ ∖ {["det"]})) ∧
  EdgeLabelFilter.removeAllowedLabel
    (EdgeLabelFilter.mk (∅ ∖ {["det"]})) "det"
  = Raise KeyError.
Proof.
  destruct label_remove_after_add_and_twice as (Hadd & Htwice & _).
  split; [exact (Hadd (EdgeLabelFilter.mk ∅) "det")|].
  exact (Htwice _ _ "det" (Hadd (EdgeLabelFilter.mk ∅) "det")).
Defined.

Lemma property_remove_after_add_and_twice_witness :
  EdgeTokenFilter.removeAllowedProperty
    (EdgeTokenFilter.addAllowedProperty (EdgeTokenFilter.init []) "dog") "dog"
  = Ok (EdgeTokenFilter.mk false false false (list_to_set [] ∖ {["dog"]})) ∧
  EdgeTokenFilter.removeAllowedProperty
    (EdgeTokenFilter.mk false false false (list_to_set [] ∖ {["dog"]})) "dog"
  = Raise KeyError.
Proof.
  destruct property_remove_after_add_and_twice as (Hadd & Htwice & _).
  split; [exact (Hadd (EdgeTokenFilter.init []) "dog")|].
  exact (Htwice _ _ "dog" (Hadd (EdgeTokenFilter.init []) "dog")).
Defined.

Lemma label_add_grows_unless_first_witness :
  EdgeLabelFilter._allowedLabels (EdgeLabelFilter.mk {["det"]}) ≠ ∅ ∧
  edgeAB ∈ iter_edges (EdgeLabelFilter.filterEdges
                         (EdgeLabelFilter.mk {["det"]})
                         (AsList [edgeAB; edgeBC])) ∧
  edgeAB ∈ iter_edges (EdgeLabelFilter.filterEdges
                         (EdgeLabelFilter.addAllowedLabel
                            (EdgeLabelFilter.mk {["det"]}) "subj")
                         (AsList [edgeAB; edgeBC])).
Proof.
  assert (EdgeLabelFilter._allowedLabels (EdgeLabelFilter.mk {["det"]}) ≠ ∅)
    as Hne.
  { cbn [EdgeLabelFilter._allowedLabels]. apply non_empty_singleton_L. }
  assert (edgeAB ∈ iter_edges (EdgeLabelFilter.filterEdges
                                 (EdgeLabelFilter.mk {["det"]})
                                 (AsList [edgeAB; edgeBC]))) as Hkept.
  { apply (label_keeps_iff {["det"]}); [exact Hne|].
    split; [apply list_elem_of_here|].
    exists "det", EmptyString, EmptyString.
    split; [by apply elem_of_singleton | reflexivity]. }
  split; [exact Hne|]. split; [exact Hkept|].
  destruct (label_add_grows_unless_first (EdgeLabelFilter.mk {["det"]})
              "subj" (AsList [edgeAB; edgeBC]) edgeAB) as [Hgrow _].
  exact (Hgrow Hne Hkept).
Defined.

Lemma getPaths_outcomes_witness :
  (tokA ∉ EdgeTokenFilter.keys ∅) ∧
  EdgeTokenFilter.getTos ∅ (EdgeTokenFilter.TokenInstance tokA) = [] ∧
  EdgeTokenFilter.getPaths ∅ tokA tokB = Ok None ∧
  (r ← EdgeTokenFilter.getPaths ∅ tokA tokB; EdgeTokenFilter.iter_paths r)
  = Raise TypeError.
Proof.
  assert (tokA ∉ EdgeTokenFilter.keys ∅) as Hno.
  { unfold EdgeTokenFilter.keys. rewrite dom_empty_L, elements_empty.
    apply not_elem_of_nil. }
  split; [exact Hno|].
  destruct (getPaths_outcomes ∅ tokA tokB) as (_ & _ & Hnone).
  exact (Hnone Hno).
Defined.

Lemma Path_hash_sum_witness :
  ({[edgeAB]} : gset Edge) ## {[edgeBC]} ∧
  Path_hash (λ e, Z.of_nat (String.length (label e)))
            ({[edgeAB]} ∪ {[edgeBC]})
  = Path_hash (λ e, Z.of_nat (String.length (label e))) {[edgeAB]}
    + Path_hash (λ e, Z.of_nat (String.length (label e))) {[edgeBC]}.
Proof.
  assert (({[edgeAB]} : gset Edge) ## {[edgeBC]}) as Hdisj.
  { apply disjoint_singleton_l, not_elem_of_singleton.
    intros H. apply (f_equal label) in H. discriminate H. }
  split; [exact Hdisj|].
  destruct (Path_hash_sum (λ e, Z.of_nat (String.length (label e))))
    as (_ & _ & Hsum).
  exact (Hsum _ _ Hdisj).
Defined.
